(** * FACU: document-extraction workspace

    A shallow embedding of the session store of [src/App.tsx] and of the
    spreadsheet synchronisation protocol of
    [services/googleSheetsService.ts], with the properties the
    specification states about them. *)

From Stdlib Require Import List String Ascii Bool Arith ZArith NArith Lia.
From Stdlib Require Import DecimalString DecimalN.
From Equations Require Import Equations.
Import ListNotations.
Open Scope string_scope.
Open Scope list_scope.

(** ** JavaScript values used by the program *)

(** A JavaScript [number] and the built-in [String(n)] conversion.  The
    program never computes with field numbers, it only prints them, so the
    number type is kept abstract. *)
Class JsNumber : Type := {
  number : Type;
  String_of_number : number -> string
}.

(** Integer-valued numbers, printed in decimal, as one concrete instance. *)
Definition String_of_N (n : N) : string :=
  NilEmpty.string_of_uint (N.to_uint n).

Definition String_of_Z (z : Z) : string :=
  match z with
  | Zneg p => ("-" ++ String_of_N (Npos p))%string
  | _ => String_of_N (Z.to_N z)
  end.

#[export] Instance IntegerNumber : JsNumber :=
  {| number := Z; String_of_number := String_of_Z |}.

(** [s || d] on strings: the empty string is falsy. *)
Definition or_else (s d : string) : string :=
  match s with EmptyString => d | _ => s end.

(** [Array.prototype.includes] on an array of strings. *)
Definition includes (l : list string) (h : string) : bool :=
  existsb (String.eqb h) l.

(** [Array.prototype.indexOf]: the first index holding [h], or [-1]. *)
Fixpoint indexOf (l : list string) (h : string) : Z :=
  match l with
  | [] => (-1)%Z
  | x :: xs =>
      if String.eqb x h then 0%Z
      else let i := indexOf xs h in
           if (i =? -1)%Z then (-1)%Z else (i + 1)%Z
  end.

(** [String.prototype.includes]: [needle] occurs somewhere in [hay]. *)
Fixpoint str_includes (hay needle : string) : bool :=
  if String.prefix needle hay then true
  else match hay with
       | EmptyString => false
       | String _ rest => str_includes rest needle
       end.

(** [while (rowVals.length < n) rowVals.push(empty string)]. *)
Equations? pad_while (rowVals : list string) (n : nat) : list string
  by wf (n - List.length rowVals) lt :=
  pad_while rowVals n with lt_dec (List.length rowVals) n => {
    | left _ := pad_while (rowVals ++ [EmptyString]) n;
    | right _ := rowVals }.
Proof.
  rewrite List.length_app. simpl. lia.
Qed.

(** ** types.ts *)

Section Types.
Context {JSN : JsNumber}.

Inductive FieldValue : Type :=
| VString (s : string)
| VNumber (n : number).

(** [String(v)] for [v : string | number]. *)
Definition String_ (v : FieldValue) : string :=
  match v with
  | VString s => s
  | VNumber n => String_of_number n
  end.

Record Field : Type := mkField {
  label : string;
  value : FieldValue
}.

Record TableRow : Type := mkRow {
  values : list string
}.

Record Table : Type := mkTable {
  tname : string;
  headers : list string;
  rows : list TableRow
}.

Record ExtractedData : Type := mkData {
  fields : list Field;
  tables : list Table
}.

Inductive AppStatus : Type :=
| IDLE | ANALYZING | SUCCESS | ERROR | EXPORTING.

Record ProcessedResult : Type := mkResult {
  id : string;
  name : string;
  image : string;
  data : ExtractedData;
  status : AppStatus;
  errorMessage : option string
}.

Record SheetConfig : Type := mkConfig {
  spreadsheetId : string;
  clientId : string
}.

Definition AppStatus_eqb (a b : AppStatus) : bool :=
  match a, b with
  | IDLE, IDLE | ANALYZING, ANALYZING | SUCCESS, SUCCESS
  | ERROR, ERROR | EXPORTING, EXPORTING => true
  | _, _ => false
  end.

(** ** services/googleSheetsService.ts: the pure part *)

(** Step 1, "Prepare Data for Export": the header line. *)
Definition globalHeaders (d : ExtractedData) : list string :=
  map label (fields d).

Definition globalValues (d : ExtractedData) : list string :=
  map (fun f => String_ (value f)) (fields d).

Definition finalHeaders (d : ExtractedData) : list string :=
  match tables d with
  | primaryTable :: _ => globalHeaders d ++ headers primaryTable
  | [] => globalHeaders d
  end.

(** Step 1: the rows, one per row of the primary table. *)
Definition rowsToAppend (d : ExtractedData) : list (list string) :=
  match tables d with
  | primaryTable :: _ =>
      map (fun tableRow =>
             let rowVals :=
               pad_while (map (fun v => v) (values tableRow))
                         (List.length (headers primaryTable)) in
             globalValues d ++ rowVals)
          (rows primaryTable)
  | [] => [globalValues d]
  end.

(** Step 3, "Compute Header Union": the [forEach] over [finalHeaders],
    carrying [masterHeaders] and the [headersChanged] flag. *)
Fixpoint union_loop (fh : list string) (acc : list string * bool)
  : list string * bool :=
  match fh with
  | [] => acc
  | h :: rest =>
      if negb (includes (fst acc) h)
      then union_loop rest (fst acc ++ [h], true)
      else union_loop rest acc
  end.

Definition masterHeaders (existingHeaders fh : list string) : list string :=
  fst (union_loop fh (existingHeaders, false)).

Definition headersChanged (existingHeaders fh : list string) : bool :=
  snd (union_loop fh (existingHeaders, false)).

(** Step 4, "Map Values to Master Headers Order".  [localRow[i]] is
    [undefined] out of range: a cell is [None] for [undefined]. *)
Definition reproject (mh fh : list string) (localRow : list string)
  : list (option string) :=
  map (fun header =>
         let localIndex := indexOf fh header in
         if negb (localIndex =? -1)%Z
         then nth_error localRow (Z.to_nat localIndex)
         else Some EmptyString)
      mh.

Definition formattedRows (mh fh : list string) (rs : list (list string))
  : list (list (option string)) :=
  map (reproject mh fh) rs.

(** ** services/googleSheetsService.ts: the remote protocol *)

(** The five calls the protocol makes on the spreadsheet API, each with
    what tells it apart: spreadsheet id, token, sheet title or A1 range (as
    built, before it is encoded into the URL) and the values it carries. *)
Inductive Request : Type :=
| GetSpreadsheet (spreadsheetId accessToken : string)
| AddSheet (spreadsheetId accessToken title : string)
| GetValues (spreadsheetId accessToken range : string)
| PutValues (spreadsheetId accessToken range : string)
            (vals : list (list string))
| AppendValues (spreadsheetId accessToken range : string)
               (vals : list (list (option string))).

(** What the code reads of a JSON body: [err.error?.message],
    [sheets[i].properties.title] and [values]. *)
Record Body : Type := mkBody {
  error_message : option string;
  sheets : list string;
  body_values : option (list (list string))
}.

(** The outcome of one awaited call: the promise rejects (transport
    failure, body that cannot be read), or a response arrives with its
    [ok] flag and body. *)
Inductive Fetched : Type :=
| Rejected (message : string)
| Response (ok : bool) (body : Body).

(** An [async] computation: the requests issued so far, and either the
    message of the thrown [Error] or the value. *)
Definition Async (A : Type) : Type := (list Request * (string + A))%type.

Definition ret {A} (a : A) : Async A := ([], inr a).

Definition throw {A} (message : string) : Async A := ([], inl message).

Definition bind {A B} (c : Async A) (k : A -> Async B) : Async B :=
  match c with
  | (log, inl message) => (log, inl message)
  | (log, inr a) => let (log', r) := k a in (log ++ log', r)
  end.

Notation "x <- c ;; k" := (bind c (fun x => k))
  (at level 61, c at next level, right associativity).

Definition await_fetch (fetch : Request -> Fetched) (r : Request)
  : Async (bool * Body) :=
  match fetch r with
  | Rejected message => ([r], inl message)
  | Response ok body => ([r], inr (ok, body))
  end.

Definition is_empty (s : string) : bool :=
  match s with EmptyString => true | _ => false end.

(** The character class [[a-zA-Z0-9_]]. *)
Definition is_word_char (c : ascii) : bool :=
  let n := nat_of_ascii c in
  (((97 <=? n) && (n <=? 122)) || ((65 <=? n) && (n <=? 90))
   || ((48 <=? n) && (n <=? 57)) || (n =? 95))%nat.

Fixpoint all_word_chars (s : string) : bool :=
  match s with
  | EmptyString => true
  | String c rest => is_word_char c && all_word_chars rest
  end.

(** [name.replace(/'/g, "''")]. *)
Fixpoint double_quotes (s : string) : string :=
  match s with
  | EmptyString => EmptyString
  | String c rest =>
      if Ascii.eqb c "'" then String "'" (String "'" (double_quotes rest))
      else String c (double_quotes rest)
  end.

Definition formatSheetName (name : string) : string :=
  if negb (is_empty name) && all_word_chars name then name
  else ("'" ++ double_quotes name ++ "'")%string.

(** [err.error?.message || fallback]. *)
Definition message_or (b : Body) (fallback : string) : string :=
  match error_message b with
  | Some m => or_else m fallback
  | None => fallback
  end.

(** [getResult.values?.[0] || []]. *)
Definition first_row (b : Body) : list string :=
  match body_values b with
  | Some (r :: _) => r
  | _ => []
  end.

Definition exportToGoogleSheet (fetch : Request -> Fetched)
    (spreadsheetId accessToken : string) (data : ExtractedData)
    (sheetName : string) : Async unit :=
  if is_empty spreadsheetId || is_empty accessToken
  then throw "Missing Spreadsheet ID or Access Token"
  else
    (* 0. find or create the sheet *)
    metaResponse <- await_fetch fetch (GetSpreadsheet spreadsheetId accessToken) ;;
    if negb (fst metaResponse)
    then throw (message_or (snd metaResponse)
                  "Failed to access spreadsheet. Check ID and permissions.")
    else
      let metaData := snd metaResponse in
      let existingSheet := find (String.eqb sheetName) (sheets metaData) in
      _ <- match existingSheet with
           | None =>
               _ <- await_fetch fetch (AddSheet spreadsheetId accessToken sheetName) ;;
               ret tt
           | Some _ => ret tt
           end ;;
      let a1SheetName := formatSheetName sheetName in
      (* 1. prepare the data *)
      let fh := finalHeaders data in
      let rs := rowsToAppend data in
      (* 2. fetch the existing headers *)
      let headerRange := (a1SheetName ++ "!A1:Z1")%string in
      getResponse <- await_fetch fetch (GetValues spreadsheetId accessToken headerRange) ;;
      let existingHeaders :=
        if fst getResponse then first_row (snd getResponse) else [] in
      (* 3. header union *)
      let mh := masterHeaders existingHeaders fh in
      _ <- (if headersChanged existingHeaders fh
            then
              let updateRange := (a1SheetName ++ "!A1")%string in
              _ <- await_fetch fetch (PutValues spreadsheetId accessToken updateRange [mh]) ;;
              ret tt
            else ret tt) ;;
      (* 4. map the values to the master order, 5. append *)
      let appendRange := (a1SheetName ++ "!A2")%string in
      appendResponse <- await_fetch fetch
        (AppendValues spreadsheetId accessToken appendRange (formattedRows mh fh rs)) ;;
      if negb (fst appendResponse)
      then throw (message_or (snd appendResponse) "Failed to append row")
      else ret tt.

(** ** services/googleSheetsService.ts: the protocol on bodies as received *)

(** [exportToGoogleSheet] above takes the bodies as the API documents
    them.  The code reads them unvalidated, and a read of a property of
    [null] or [undefined] throws a [TypeError]; here the bodies are as
    they arrive. *)

(** An entry of [metaData.sheets] as the callback of [find] reads it:
    [s.properties.title] throws when [s] or [s.properties] is [null] or
    missing; a title that is missing or not a string equals no name. *)
Inductive SheetEntry : Type :=
| NoProperties
| Properties (title : option string).

(** [values?.[0] || []] as the spread [[...existingHeaders]] takes it:
    nothing ([values] missing, or its first entry falsy), a row of cells,
    or a value that is truthy and not iterable, on which the spread
    throws.  Cells are strings, the type the code declares. *)
Inductive HeaderRow : Type :=
| NoRow
| Row (cells : list string)
| NotIterable.

(** A response body.  [NotJson]: [response.json()] rejects.  [JsonNull]:
    the value [null], on which every property read throws.  [JsonValue]:
    any other value, with what the code reads of it: [error?.message] as
    [new Error] renders it, [sheets] when it is an array ([.find] throws
    otherwise), and the header row. *)
Inductive Json : Type :=
| NotJson
| JsonNull
| JsonValue (message : option string)
            (sheetEntries : option (list SheetEntry))
            (headerRow : HeaderRow).

Inductive RawFetched : Type :=
| RawRejected (message : string)
| RawResponse (ok : bool) (body : Json).

(** What an [async] function rejects with: an [Error] with its message,
    or an error of the engine, whose message the engine chooses. *)
Inductive Thrown : Type :=
| Raised (message : string)
| TypeError
| SyntaxError.

Definition RawAsync (A : Type) : Type := (list Request * (Thrown + A))%type.

Definition raw_ret {A} (a : A) : RawAsync A := ([], inr a).

Definition raw_throw {A} (e : Thrown) : RawAsync A := ([], inl e).

Definition raw_bind {A B} (c : RawAsync A) (k : A -> RawAsync B)
  : RawAsync B :=
  match c with
  | (log, inl e) => (log, inl e)
  | (log, inr a) => let (log', r) := k a in (log ++ log', r)
  end.

Notation "x <-- c ;; k" := (raw_bind c (fun x => k))
  (at level 61, c at next level, right associativity).

Definition raw_await (fetch : Request -> RawFetched) (r : Request)
  : RawAsync (bool * Json) :=
  match fetch r with
  | RawRejected message => ([r], inl (Raised message))
  | RawResponse ok body => ([r], inr (ok, body))
  end.

(** [await response.json()]. *)
Definition json (body : Json) : RawAsync Json :=
  match body with
  | NotJson => raw_throw SyntaxError
  | _ => raw_ret body
  end.

(** [err.error?.message || fallback]. *)
Definition raw_message_or (err : Json) (fallback : string) : RawAsync string :=
  match err with
  | JsonValue (Some m) _ _ => raw_ret (or_else m fallback)
  | JsonValue None _ _ => raw_ret fallback
  | _ => raw_throw TypeError
  end.

(** [entries.find(s => s.properties.title === sheetName)]. *)
Fixpoint find_title (sheetName : string) (entries : list SheetEntry)
  : Thrown + option SheetEntry :=
  match entries with
  | [] => inr None
  | NoProperties :: _ => inl TypeError
  | Properties (Some title) :: rest =>
      if String.eqb sheetName title then inr (Some (Properties (Some title)))
      else find_title sheetName rest
  | Properties None :: rest => find_title sheetName rest
  end.

(** [metaData.sheets.find(...)]. *)
Definition find_sheet (metaData : Json) (sheetName : string)
  : RawAsync (option SheetEntry) :=
  match metaData with
  | JsonValue _ (Some entries) _ => ([], find_title sheetName entries)
  | _ => raw_throw TypeError
  end.

(** [getResult.values?.[0] || []]. *)
Definition values_0 (getResult : Json) : RawAsync HeaderRow :=
  match getResult with
  | JsonValue _ _ h => raw_ret h
  | _ => raw_throw TypeError
  end.

(** [[...existingHeaders]]. *)
Definition spread (existingHeaders : HeaderRow) : RawAsync (list string) :=
  match existingHeaders with
  | NoRow => raw_ret []
  | Row cells => raw_ret cells
  | NotIterable => raw_throw TypeError
  end.

Definition exportToGoogleSheet_raw (fetch : Request -> RawFetched)
    (spreadsheetId accessToken : string) (data : ExtractedData)
    (sheetName : string) : RawAsync unit :=
  if is_empty spreadsheetId || is_empty accessToken
  then raw_throw (Raised "Missing Spreadsheet ID or Access Token")
  else
    (* 0. find or create the sheet *)
    metaResponse <-- raw_await fetch (GetSpreadsheet spreadsheetId accessToken) ;;
    if negb (fst metaResponse)
    then
      err <-- json (snd metaResponse) ;;
      message <-- raw_message_or err
                    "Failed to access spreadsheet. Check ID and permissions." ;;
      raw_throw (Raised message)
    else
      metaData <-- json (snd metaResponse) ;;
      existingSheet <-- find_sheet metaData sheetName ;;
      _ <-- match existingSheet with
            | None =>
                _ <-- raw_await fetch (AddSheet spreadsheetId accessToken sheetName) ;;
                raw_ret tt
            | Some _ => raw_ret tt
            end ;;
      let a1SheetName := formatSheetName sheetName in
      (* 1. prepare the data *)
      let fh := finalHeaders data in
      let rs := rowsToAppend data in
      (* 2. fetch the existing headers *)
      let headerRange := (a1SheetName ++ "!A1:Z1")%string in
      getResponse <-- raw_await fetch (GetValues spreadsheetId accessToken headerRange) ;;
      existingHeaders <-- (if fst getResponse
                           then getResult <-- json (snd getResponse) ;;
                                values_0 getResult
                           else raw_ret NoRow) ;;
      (* 3. header union *)
      existingHeaders <-- spread existingHeaders ;;
      let mh := masterHeaders existingHeaders fh in
      _ <-- (if headersChanged existingHeaders fh
             then
               let updateRange := (a1SheetName ++ "!A1")%string in
               _ <-- raw_await fetch (PutValues spreadsheetId accessToken updateRange [mh]) ;;
               raw_ret tt
             else raw_ret tt) ;;
      (* 4. map the values to the master order, 5. append *)
      let appendRange := (a1SheetName ++ "!A2")%string in
      appendResponse <-- raw_await fetch
        (AppendValues spreadsheetId accessToken appendRange (formattedRows mh fh rs)) ;;
      if negb (fst appendResponse)
      then
        err <-- json (snd appendResponse) ;;
        message <-- raw_message_or err "Failed to append row" ;;
        raw_throw (Raised message)
      else raw_ret tt.

(** A body of the documented shape, as it arrives. *)
Definition body_received (b : Body) : Json :=
  JsonValue (error_message b)
            (Some (map (fun title => Properties (Some title)) (sheets b)))
            (match body_values b with
             | Some (r :: _) => Row r
             | _ => NoRow
             end).

Definition received (f : Fetched) : RawFetched :=
  match f with
  | Rejected message => RawRejected message
  | Response ok body => RawResponse ok (body_received body)
  end.

Definition raised {A} (c : Async A) : RawAsync A :=
  (fst c, match snd c with
          | inl message => inl (Raised message)
          | inr a => inr a
          end).

(** ** App.tsx *)

(** [Partial<ProcessedResult>]: the argument of [updateResult]. *)
Record Partial : Type := mkPartial {
  p_id : option string;
  p_name : option string;
  p_image : option string;
  p_data : option ExtractedData;
  p_status : option AppStatus;
  p_errorMessage : option (option string)
}.

Definition no_updates : Partial := mkPartial None None None None None None.

Definition get {A} (o : option A) (d : A) : A :=
  match o with Some a => a | None => d end.

(** [{ ...r, ...updates }]. *)
Definition merge (r : ProcessedResult) (u : Partial) : ProcessedResult :=
  mkResult (get (p_id u) (id r)) (get (p_name u) (name r))
           (get (p_image u) (image r)) (get (p_data u) (data r))
           (get (p_status u) (status r))
           (get (p_errorMessage u) (errorMessage r)).

Definition update_name (n : string) : Partial :=
  mkPartial None (Some n) None None None None.
Definition update_data (d : ExtractedData) : Partial :=
  mkPartial None None None (Some d) None None.
Definition update_status (s : AppStatus) : Partial :=
  mkPartial None None None None (Some s) None.
Definition update_data_status (d : ExtractedData) (s : AppStatus) : Partial :=
  mkPartial None None None (Some d) (Some s) None.
Definition update_status_error (s : AppStatus) (m : string) : Partial :=
  mkPartial None None None None (Some s) (Some (Some m)).

(** The values [handleExportToSheets] holds across its [await]. *)
Record ExportTask : Type := mkTask {
  task_id : string;
  task_sheetName : string;
  task_spreadsheetId : string;
  task_accessToken : string;
  task_data : ExtractedData
}.

(** The React state of [App], followed by its environment: the alerts
    shown, the requests sent, the asynchronous calls in flight, and (a
    history variable) the ids given out so far. *)
Record World : Type := mkWorld {
  results : list ProcessedResult;
  activeResultId : option string;
  showSettings : bool;
  sheetConfig : SheetConfig;
  googleAccessToken : option string;
  alerts : list string;
  requests : list Request;
  extractions : list string;
  exports : list ExportTask;
  createdIds : list string
}.

Definition initial : World :=
  mkWorld [] None false (mkConfig EmptyString EmptyString) None [] [] [] [] [].

Definition setResults (f : list ProcessedResult -> list ProcessedResult)
    (w : World) : World :=
  mkWorld (f (results w)) (activeResultId w) (showSettings w) (sheetConfig w)
          (googleAccessToken w) (alerts w) (requests w) (extractions w)
          (exports w) (createdIds w).

Definition setActiveResultId (a : option string) (w : World) : World :=
  mkWorld (results w) a (showSettings w) (sheetConfig w)
          (googleAccessToken w) (alerts w) (requests w) (extractions w)
          (exports w) (createdIds w).

Definition setShowSettings (b : bool) (w : World) : World :=
  mkWorld (results w) (activeResultId w) b (sheetConfig w)
          (googleAccessToken w) (alerts w) (requests w) (extractions w)
          (exports w) (createdIds w).

Definition setSheetConfig (f : SheetConfig -> SheetConfig) (w : World)
  : World :=
  mkWorld (results w) (activeResultId w) (showSettings w) (f (sheetConfig w))
          (googleAccessToken w) (alerts w) (requests w) (extractions w)
          (exports w) (createdIds w).

Definition setGoogleAccessToken (t : option string) (w : World) : World :=
  mkWorld (results w) (activeResultId w) (showSettings w) (sheetConfig w)
          t (alerts w) (requests w) (extractions w)
          (exports w) (createdIds w).

Definition alert (m : string) (w : World) : World :=
  mkWorld (results w) (activeResultId w) (showSettings w) (sheetConfig w)
          (googleAccessToken w) (alerts w ++ [m]) (requests w) (extractions w)
          (exports w) (createdIds w).

Definition send (log : list Request) (w : World) : World :=
  mkWorld (results w) (activeResultId w) (showSettings w) (sheetConfig w)
          (googleAccessToken w) (alerts w) (requests w ++ log) (extractions w)
          (exports w) (createdIds w).

Definition setExtractions (l : list string) (w : World) : World :=
  mkWorld (results w) (activeResultId w) (showSettings w) (sheetConfig w)
          (googleAccessToken w) (alerts w) (requests w) l
          (exports w) (createdIds w).

Definition setExports (l : list ExportTask) (w : World) : World :=
  mkWorld (results w) (activeResultId w) (showSettings w) (sheetConfig w)
          (googleAccessToken w) (alerts w) (requests w) (extractions w)
          l (createdIds w).

Definition record_id (i : string) (w : World) : World :=
  mkWorld (results w) (activeResultId w) (showSettings w) (sheetConfig w)
          (googleAccessToken w) (alerts w) (requests w) (extractions w)
          (exports w) (createdIds w ++ [i]).

(** [r.id === activeResultId], with [activeResultId : string | null]. *)
Definition is_active_id (a : option string) (i : string) : bool :=
  match a with Some x => String.eqb i x | None => false end.

(** [results.find(r => r.id === activeResultId)]. *)
Definition activeResult (w : World) : option ProcessedResult :=
  find (fun r => is_active_id (activeResultId w) (id r)) (results w).

Definition updateResult (i : string) (updates : Partial) (w : World) : World :=
  setResults
    (fun prev => map (fun r => if String.eqb (id r) i then merge r updates else r)
                     prev)
    w.

Definition emptyData : ExtractedData := mkData [] [].

(** [handleImageSelect], up to its [await], as the file picker's
    [handleChange] calls it; [now] is [Date.now()]. *)
Definition handleImageSelect (now : N) (base64 : string) (w : World) : World :=
  let newResultId := ("result-" ++ String_of_N now)%string in
  let newResult :=
    mkResult newResultId
             ("Result " ++ String_of_N (N.of_nat (List.length (results w) + 1)))%string
             base64 emptyData ANALYZING None in
  setExtractions (extractions w ++ [newResultId])
    (record_id newResultId
       (setActiveResultId (Some newResultId)
          (setResults (fun prev => prev ++ [newResult]) w))).

(** [handleImageSelect] as [ImageUploader]'s [handleDrop] calls it.
    [handleDrop] is memoised with [useCallback(..., [])], so it keeps the
    [handleFile] of the first render, whose [onImageSelected] is the
    [handleImageSelect] of [App]'s first render: there [results] is the
    initial [[]], while the setters act on the current state. *)
Definition handleImageDrop (now : N) (base64 : string) (w : World) : World :=
  let newResultId := ("result-" ++ String_of_N now)%string in
  let newResult :=
    mkResult newResultId
             ("Result " ++ String_of_N (N.of_nat (List.length (results initial) + 1)))%string
             base64 emptyData ANALYZING None in
  setExtractions (extractions w ++ [newResultId])
    (record_id newResultId
       (setActiveResultId (Some newResultId)
          (setResults (fun prev => prev ++ [newResult]) w))).

(** The [k]-th element taken out of a list of calls in flight. *)
Fixpoint remove_nth {A} (k : nat) (l : list A) : list A :=
  match l, k with
  | [], _ => []
  | _ :: xs, O => xs
  | x :: xs, S k' => x :: remove_nth k' xs
  end.

(** [handleImageSelect] after its [await]: the [try] branch. *)
Definition extractionResolved (k : nat) (extractedData : ExtractedData)
    (w : World) : World :=
  match nth_error (extractions w) k with
  | Some newResultId =>
      updateResult newResultId (update_data_status extractedData SUCCESS)
        (setExtractions (remove_nth k (extractions w)) w)
  | None => w
  end.

(** [handleImageSelect] after its [await]: the [catch] branch. *)
Definition extractionRejected (k : nat) (message : string) (w : World) : World :=
  match nth_error (extractions w) k with
  | Some newResultId =>
      updateResult newResultId
        (update_status_error ERROR (or_else message "Failed to extract data."))
        (setExtractions (remove_nth k (extractions w)) w)
  | None => w
  end.

Definition handleCloseTab (i : string) (w : World) : World :=
  let remainingResults :=
    filter (fun r => negb (String.eqb (id r) i)) (results w) in
  let w' :=
    if is_active_id (activeResultId w) i
    then match remainingResults with
         | r0 :: _ => setActiveResultId (Some (id (last remainingResults r0))) w
         | [] => setActiveResultId None w
         end
    else w in
  setResults (fun _ => remainingResults) w'.

Definition handleRenameTab (i newName : string) (w : World) : World :=
  updateResult i (update_name newName) w.

(** [handleGoogleLogin]; [loaded] is [window.google] being there.  The
    token arrives later, through [tokenCallback]. *)
Definition handleGoogleLogin (loaded : bool) (w : World) : World :=
  if is_empty (clientId (sheetConfig w))
  then setShowSettings true
         (alert "Please enter your Google Client ID in settings first." w)
  else if negb loaded
  then alert "Google Identity Services script not loaded." w
  else w.

Definition tokenCallback (access_token : string) (w : World) : World :=
  if negb (is_empty access_token)
  then alert "Connected to Google successfully! You can now export."
         (setGoogleAccessToken (Some access_token) w)
  else w.

(** [handleExportToSheets], up to its [await]; [confirmLogin] is the
    answer to [window.confirm]. *)
Definition handleExportToSheets (confirmLogin loaded : bool) (w : World)
  : World :=
  if is_empty (spreadsheetId (sheetConfig w))
  then alert "Please enter the Spreadsheet ID." (setShowSettings true w)
  else
    match googleAccessToken w with
    | Some (String c t) =>
        let token := String c t in
        match activeResult w with
        | None => alert "No active document to export." w
        | Some r =>
            setExports
              (exports w ++
               [mkTask (id r) (name r) (spreadsheetId (sheetConfig w))
                       token (data r)])
              (updateResult (id r) (update_status EXPORTING) w)
        end
    | _ => if confirmLogin then handleGoogleLogin loaded w else w
    end.

(** [handleExportToSheets] after its [await]: the [try] branch completed. *)
Definition exportSucceeded (t : ExportTask) (w : World) : World :=
  updateResult (task_id t) (update_status SUCCESS)
    (alert ("Success! Data exported to sheet: " ++ task_sheetName t)%string w).

(** [handleExportToSheets] after its [await]: the [catch] branch. *)
Definition exportFailed (t : ExportTask) (message : string) (w : World)
  : World :=
  let w1 :=
    updateResult (task_id t) (update_status SUCCESS)
      (alert ("Export Failed: " ++ message)%string w) in
  if str_includes message "401" || str_includes message "unauthorized"
  then alert "Session expired. Please connect again."
         (setGoogleAccessToken None w1)
  else w1.

(** The [k]-th export in flight runs against the remote service [fetch]
    and settles. *)
Definition exportSettled (k : nat) (fetch : Request -> Fetched) (w : World)
  : World :=
  match nth_error (exports w) k with
  | Some t =>
      let (log, outcome) :=
        exportToGoogleSheet fetch (task_spreadsheetId t) (task_accessToken t)
                            (task_data t) (task_sheetName t) in
      let w' := send log (setExports (remove_nth k (exports w)) w) in
      match outcome with
      | inr _ => exportSucceeded t w'
      | inl message => exportFailed t message w'
      end
  | None => w
  end.

(** [hasData], computed from [activeResult]. *)
Definition hasData (w : World) : bool :=
  match activeResult w with
  | Some r =>
      (0 <? List.length (fields (data r)))%nat
      || (0 <? List.length (tables (data r)))%nat
  | None => false
  end.

(** [downloadCSV]: the header line and the rows it writes. *)
Definition csvHeaders (resultData : ExtractedData) : list string :=
  match tables resultData with
  | mainTable :: _ => map label (fields resultData) ++ headers mainTable
  | [] => map label (fields resultData)
  end.

Definition csvRows (resultData : ExtractedData) : list (list string) :=
  match tables resultData with
  | mainTable :: _ =>
      let globalVals := map (fun f => String_ (value f)) (fields resultData) in
      map (fun r => globalVals ++ values r) (rows mainTable)
  | [] => [map (fun f => String_ (value f)) (fields resultData)]
  end.

(** ** The user interface as a transition system *)

(** What can happen to a running [App]: a callback of the interface is
    invoked, or a call in flight settles. *)
Inductive Event : Type :=
| ImageSelected (now : N) (base64 : string)
| ImageDropped (now : N) (base64 : string)
| ExtractionResolved (k : nat) (extractedData : ExtractedData)
| ExtractionRejected (k : nat) (message : string)
| SelectTab (i : string)
| CloseTab (i : string)
| RenameTab (i newName : string)
| DismissError
| EditData (newData : ExtractedData)
| ExportClicked (confirmLogin loaded : bool)
| ExportSettled (k : nat) (fetch : Request -> Fetched)
| LoginClicked (loaded : bool)
| TokenReceived (access_token : string)
| SettingsShown (b : bool)
| SpreadsheetIdTyped (v : string)
| ClientIdTyped (v : string).

(** The error overlay's button: [updateResult(activeResult.id, {status: IDLE})]. *)
Definition dismissError (w : World) : World :=
  match activeResult w with
  | Some r => updateResult (id r) (update_status IDLE) w
  | None => w
  end.

(** [DataEditor]'s [onChange]. *)
Definition editData (newData : ExtractedData) (w : World) : World :=
  match activeResultId w with
  | Some (String c t) => updateResult (String c t) (update_data newData) w
  | _ => w
  end.

Definition handle (e : Event) (w : World) : World :=
  match e with
  | ImageSelected now base64 => handleImageSelect now base64 w
  | ImageDropped now base64 => handleImageDrop now base64 w
  | ExtractionResolved k d => extractionResolved k d w
  | ExtractionRejected k m => extractionRejected k m w
  | SelectTab i => setActiveResultId (Some i) w
  | CloseTab i => handleCloseTab i w
  | RenameTab i newName => handleRenameTab i newName w
  | DismissError => dismissError w
  | EditData newData => editData newData w
  | ExportClicked confirmLogin loaded => handleExportToSheets confirmLogin loaded w
  | ExportSettled k fetch => exportSettled k fetch w
  | LoginClicked loaded => handleGoogleLogin loaded w
  | TokenReceived t => tokenCallback t w
  | SettingsShown b => setShowSettings b w
  | SpreadsheetIdTyped v =>
      setSheetConfig (fun prev => mkConfig v (clientId prev)) w
  | ClientIdTyped v =>
      setSheetConfig (fun prev => mkConfig (spreadsheetId prev) v) w
  end.

Definition has_id (i : string) (w : World) : bool :=
  existsb (fun r => String.eqb (id r) i) (results w).

Definition active_status_is (s : AppStatus) (w : World) : bool :=
  match activeResult w with
  | Some r => AppStatus_eqb (status r) s
  | None => false
  end.

(** When the interface offers an event: a tab is there to be clicked, a
    button is rendered and not [disabled], a call is in flight. *)
Definition enabled (w : World) (e : Event) : bool :=
  match e with
  | SelectTab i | CloseTab i => has_id i w
  | RenameTab _ newName => negb (is_empty newName)
  | DismissError => active_status_is ERROR w
  | EditData _ => hasData w
  | ExportClicked _ _ => hasData w && negb (active_status_is EXPORTING w)
  | ExtractionResolved k _ | ExtractionRejected k _ =>
      (k <? List.length (extractions w))%nat
  | ExportSettled k _ => (k <? List.length (exports w))%nat
  | _ => true
  end.

Fixpoint run (es : list Event) (w : World) : World :=
  match es with
  | [] => w
  | e :: rest => run rest (handle e w)
  end.

Inductive reachable : World -> Prop :=
| reach_initial : reachable initial
| reach_step w e :
    reachable w -> enabled w e = true -> reachable (handle e w).

End Types.


(** ** Specification-side definitions *)

Definition differs (x : string) : string -> bool :=
  fun y => negb (String.eqb y x).

(** Following the specification's words for the header union: the entries
    of a list in the order in which they are first encountered. *)
Fixpoint first_occurrences (l : list string) : list string :=
  match l with
  | [] => []
  | x :: xs => x :: filter (differs x) (first_occurrences xs)
  end.

(** The [finalHeaders] entries not already present among the existing
    headers, in the order first encountered. *)
Definition unseen (existingHeaders fh : list string) : list string :=
  first_occurrences (filter (fun h => negb (includes existingHeaders h)) fh).

(** A row padded with empty strings up to [n] cells. *)
Definition padded (vals : list string) (n : nat) : list string :=
  vals ++ repeat EmptyString (n - List.length vals).

(** ** The calls of the protocol *)


(** A call succeeded: a response came back and its status is a success. *)
Definition succeeded (f : Fetched) : bool :=
  match f with
  | Response ok _ => ok
  | Rejected _ => false
  end.





(** ** Invariants of the session store *)

Section Invariants.
Context {JSN : JsNumber}.

(** [activeResultId] is [null] or the id of a Result of the collection. *)
Definition active_present (w : World) : Prop :=
  match activeResultId w with
  | None => True
  | Some a => has_id a w = true
  end.

(** The Result the interface treats as active is the one
    [results.find] returns: none when [activeResultId] is [null], and
    otherwise a Result of the collection carrying that id. *)
Definition one_active (w : World) : Prop :=
  match activeResultId w with
  | None => activeResult w = None
  | Some a =>
      exists r, activeResult w = Some r /\ In r (results w) /\ id r = a
  end.

(** The number of Results the tab bar draws as active. *)
Definition active_count (w : World) : nat :=
  List.length
    (filter (fun r => is_active_id (activeResultId w) (id r)) (results w)).

Definition has_data (d : ExtractedData) : bool :=
  ((0 <? List.length (fields d)) || (0 <? List.length (tables d)))%nat.

(** A Result that holds data has been extracted: it is in [SUCCESS], or
    in [EXPORTING] while an export is in flight. *)
Definition extracted (r : ProcessedResult) : Prop :=
  has_data (data r) = true -> status r = SUCCESS \/ status r = EXPORTING.

Record consistent (w : World) : Prop := mkConsistent {
  ids_unique : NoDup (map id (results w));
  extractions_unique : NoDup (extractions w);
  ids_created : forall r, In r (results w) -> In (id r) (createdIds w);
  extractions_created : forall x, In x (extractions w) -> In x (createdIds w);
  analyzing_empty :
    forall r, In r (results w) -> In (id r) (extractions w) ->
              has_data (data r) = false;
  results_extracted : forall r, In r (results w) -> extracted r
}.

(** All the events of a list are offered, one after the other. *)
Fixpoint all_enabled (es : list Event) (w : World) : bool :=
  match es with
  | [] => true
  | e :: rest => enabled w e && all_enabled rest (handle e w)
  end.

(** [r] with its status replaced. *)
Definition with_status (s : AppStatus) (r : ProcessedResult) : ProcessedResult :=
  mkResult (id r) (name r) (image r) (data r) s (errorMessage r).

End Invariants.

(** ** Concrete inputs *)

Section Examples.
Context {JSN : JsNumber}.

(** Two fields with the same label, no table. *)
Definition duplicateLabels : ExtractedData :=
  mkData [mkField "A" (VString "1"); mkField "A" (VString "2")] [].

(** A table row with more values than the table has headers. *)
Definition longRow : ExtractedData :=
  mkData [] [mkTable "T" ["Item"] [mkRow ["Pen"; "3"]]].

(** A table row with fewer values than the table has headers. *)
Definition shortRow : ExtractedData :=
  mkData [] [mkTable "T" ["Item"; "Qty"] [mkRow ["Pen"]]].

(** The specification's scenario: one field and a table of two rows. *)
Definition invoice : ExtractedData :=
  mkData [mkField "Date" (VString "2024-01-01")]
         [mkTable "Items" ["Item"; "Qty"]
                  [mkRow ["Pen"; "3"]; mkRow ["Book"; "1"]]].

(** ** Remote services and sessions used as examples *)

(** A spreadsheet without the wanted sheet that accepts every call. *)
Definition accepting : Request -> Fetched :=
  fun _ => Response true (mkBody None [] None).




(** A service that does not accept the token. *)
Definition expired : Request -> Fetched :=
  fun _ => Response false (mkBody (Some "401 unauthorized") [] None).

(** Configure, connect, upload three images, close the first tab before
    the third upload. *)
Definition session : list Event :=
  [ SpreadsheetIdTyped "sheet-id"; ClientIdTyped "client-id";
    LoginClicked true; TokenReceived "token";
    ImageSelected 1000 "image-1"; ExtractionResolved 0 invoice;
    ImageSelected 2000 "image-2"; ExtractionResolved 0 invoice;
    CloseTab "result-1000";
    ImageSelected 3000 "image-3"; ExtractionResolved 0 invoice ].

Definition twoTabs : World := run session initial.

(** Export the active tab, then select the other tab and export it. *)
Definition bothExported : list Event :=
  session ++ [ ExportClicked false true; SelectTab "result-2000";
               ExportClicked false true ].

Definition exporting : World := run bothExported initial.

(** The events that make up the creation of a Result through the file
    picker (the upload and the end of its extraction) or close one. *)
Definition create_or_close (e : Event) : bool :=
  match e with
  | ImageSelected _ _ | ExtractionResolved _ _ | CloseTab _ => true
  | _ => false
  end.

(** Create two Results through the file picker, close the first, create a
    third. *)
Definition closeThenUpload : list Event :=
  [ ImageSelected 1000 "image-1"; ExtractionResolved 0 invoice;
    ImageSelected 2000 "image-2"; ExtractionResolved 0 invoice;
    CloseTab "result-1000";
    ImageSelected 3000 "image-3"; ExtractionResolved 0 invoice ].

(** Create one Result through the file picker, then a second one by
    dropping an image on the uploader. *)
Definition dropSecond : list Event :=
  [ ImageSelected 1000 "image-1"; ExtractionResolved 0 invoice;
    ImageDropped 2000 "image-2"; ExtractionResolved 0 invoice ].

(** The same with the second image chosen through the file picker. *)
Definition pickSecond : list Event :=
  [ ImageSelected 1000 "image-1"; ExtractionResolved 0 invoice;
    ImageSelected 2000 "image-2"; ExtractionResolved 0 invoice ].

End Examples.

(** ** components/DataEditor.tsx *)

Section DataEditor.
Context {JSN : JsNumber}.

(** The [key] argument of [handleFieldChange]: ['label' | 'value']. *)
Inductive FieldKey : Type := KLabel | KValue.

(** The element at [i] replaced; used where [i] is in range. *)
Fixpoint replace_nth {A} (i : nat) (v : A) (l : list A) : list A :=
  match l, i with
  | [], _ => []
  | _ :: xs, O => v :: xs
  | x :: xs, S i' => x :: replace_nth i' v xs
  end.

(** [arr[i] = v] on an array of the typed model: in range it replaces, at
    [arr.length] it appends, beyond it would leave holes, which no list
    stands for ([None]). *)
Definition array_set {A} (i : nat) (v : A) (l : list A) : option (list A) :=
  if (i <? List.length l)%nat then Some (replace_nth i v l)
  else if (i =? List.length l)%nat then Some (l ++ [v])
  else None.

(** [arr.filter((_, i) => keep(i))], counting from [i]. *)
Fixpoint filter_index {A} (keep : nat -> bool) (i : nat) (l : list A) : list A :=
  match l with
  | [] => []
  | x :: xs =>
      if keep i then x :: filter_index keep (S i) xs
      else filter_index keep (S i) xs
  end.

(** [arr.filter((_, i) => i !== index)]. *)
Definition drop_index {A} (index : nat) (l : list A) : list A :=
  filter_index (fun i => negb (i =? index)%nat) 0 l.

(** The handlers build the value they pass to [onChange].  [None] stands
    for a [TypeError] (an element read at an index that is not there) or
    for a result that is no [ExtractedData] (a Field without one of its
    properties, an array with holes). *)
Definition handleFieldChange (index : nat) (key : FieldKey) (newVal : string)
    (data : ExtractedData) : option ExtractedData :=
  match nth_error (fields data) index with
  | Some f =>
      let f' := match key with
                | KLabel => mkField newVal (value f)
                | KValue => mkField (label f) (VString newVal)
                end in
      Some (mkData (replace_nth index f' (fields data)) (tables data))
  | None => None
  end.

Definition deleteField (index : nat) (data : ExtractedData) : ExtractedData :=
  mkData (drop_index index (fields data)) (tables data).

Definition addField (data : ExtractedData) : ExtractedData :=
  mkData (fields data ++ [mkField "NEW FIELD" (VString EmptyString)])
         (tables data).

Definition handleTableCellChange (tableIndex rowIndex cellIndex : nat)
    (val : string) (data : ExtractedData) : option ExtractedData :=
  match nth_error (tables data) tableIndex with
  | Some t =>
      match nth_error (rows t) rowIndex with
      | Some r =>
          match array_set cellIndex val (values r) with
          | Some newValues =>
              let newRows := replace_nth rowIndex (mkRow newValues) (rows t) in
              Some (mkData (fields data)
                      (replace_nth tableIndex
                         (mkTable (tname t) (headers t) newRows)
                         (tables data)))
          | None => None
          end
      | None => None
      end
  | None => None
  end.

Definition handleHeaderChange (tableIndex headerIndex : nat) (val : string)
    (data : ExtractedData) : option ExtractedData :=
  match nth_error (tables data) tableIndex with
  | Some t =>
      match array_set headerIndex val (headers t) with
      | Some newHeaders =>
          Some (mkData (fields data)
                  (replace_nth tableIndex
                     (mkTable (tname t) newHeaders (rows t))
                     (tables data)))
      | None => None
      end
  | None => None
  end.

Definition deleteTableRow (tableIndex rowIndex : nat) (data : ExtractedData)
  : option ExtractedData :=
  match nth_error (tables data) tableIndex with
  | Some t =>
      Some (mkData (fields data)
              (replace_nth tableIndex
                 (mkTable (tname t) (headers t) (drop_index rowIndex (rows t)))
                 (tables data)))
  | None => None
  end.

Definition addTableRow (tableIndex : nat) (data : ExtractedData)
  : option ExtractedData :=
  match nth_error (tables data) tableIndex with
  | Some t =>
      let emptyRow := repeat EmptyString (List.length (headers t)) in
      Some (mkData (fields data)
              (replace_nth tableIndex
                 (mkTable (tname t) (headers t) (rows t ++ [mkRow emptyRow]))
                 (tables data)))
  | None => None
  end.

(** The controls of the editor, one constructor per handler. *)
Inductive Edit : Type :=
| FieldChange (index : nat) (key : FieldKey) (newVal : string)
| DeleteField (index : nat)
| AddField
| CellChange (tableIndex rowIndex cellIndex : nat) (val : string)
| HeaderChange (tableIndex headerIndex : nat) (val : string)
| DeleteRow (tableIndex rowIndex : nat)
| AddRow (tableIndex : nat).

Definition applyEdit (e : Edit) (data : ExtractedData) : option ExtractedData :=
  match e with
  | FieldChange index key newVal => handleFieldChange index key newVal data
  | DeleteField index => Some (deleteField index data)
  | AddField => Some (addField data)
  | CellChange t r c val => handleTableCellChange t r c val data
  | HeaderChange t h val => handleHeaderChange t h val data
  | DeleteRow t r => deleteTableRow t r data
  | AddRow t => addTableRow t data
  end.

(** The controls the editor draws for [data]: an input per field, header
    and cell, a delete button per field and row, "Add Row" per table, and
    "Add Field" below the fields when there is at least one. *)
Definition rendered (data : ExtractedData) (e : Edit) : bool :=
  match e with
  | FieldChange index _ _ | DeleteField index =>
      (index <? List.length (fields data))%nat
  | AddField => (0 <? List.length (fields data))%nat
  | CellChange t r c _ =>
      match nth_error (tables data) t with
      | Some tb =>
          match nth_error (rows tb) r with
          | Some rw => (c <? List.length (values rw))%nat
          | None => false
          end
      | None => false
      end
  | HeaderChange t h _ =>
      match nth_error (tables data) t with
      | Some tb => (h <? List.length (headers tb))%nat
      | None => false
      end
  | DeleteRow t r =>
      match nth_error (tables data) t with
      | Some tb => (r <? List.length (rows tb))%nat
      | None => false
      end
  | AddRow t => (t <? List.length (tables data))%nat
  end.

(** The table an edit works on, if it is a table edit. *)
Definition edited_table (e : Edit) : option nat :=
  match e with
  | CellChange t _ _ _ | HeaderChange t _ _ | DeleteRow t _ | AddRow t => Some t
  | _ => None
  end.

(** Every row of every table has as many values as the table has headers. *)
Definition rectangular (data : ExtractedData) : Prop :=
  Forall (fun t => Forall (fun r => List.length (values r)
                                    = List.length (headers t)) (rows t))
         (tables data).

End DataEditor.

(** ** App.tsx: the name of the downloaded file *)

Section Download.
Context {JSN : JsNumber}.

(** [Array.prototype.findIndex]. *)
Fixpoint findIndex {A} (p : A -> bool) (l : list A) : Z :=
  match l with
  | [] => (-1)%Z
  | x :: xs =>
      if p x then 0%Z
      else let i := findIndex p xs in
           if (i =? -1)%Z then (-1)%Z else (i + 1)%Z
  end.

(** The [download] attribute [downloadCSV] sets, when it does not return
    at once for want of an active Result. *)
Definition csvFileName (w : World) : option string :=
  match activeResult w with
  | Some _ =>
      Some ("extracted_data_"
            ++ String_of_Z
                 (findIndex (fun r => is_active_id (activeResultId w) (id r))
                            (results w) + 1)
            ++ ".csv")%string
  | None => None
  end.

(** The events that add or remove a tab. *)
Definition tab_event (e : Event) : bool :=
  match e with
  | ImageSelected _ _ | ImageDropped _ _ | CloseTab _ => true
  | _ => false
  end.

End Download.

(** ** What the calls of one export look like *)

(** The A1 range of a call that reads or writes values. *)
Definition range_of (r : Request) : option string :=
  match r with
  | GetValues _ _ range | PutValues _ _ range _
  | AppendValues _ _ range _ => Some range
  | _ => None
  end.

(** The spreadsheet id and token a call is made with. *)
Definition credentials (r : Request) : string * string :=
  match r with
  | GetSpreadsheet s t | AddSheet s t _ | GetValues s t _
  | PutValues s t _ _ | AppendValues s t _ _ => (s, t)
  end.

(** The header row the protocol takes as existing: row 1 as the service
    returns it, or nothing when that call does not succeed. *)
Definition existingHeadersOf (fetch : Request -> Fetched)
    (sid tok sheetName : string) : list string :=
  match fetch (GetValues sid tok (formatSheetName sheetName ++ "!A1:Z1")%string) with
  | Response true b => first_row b
  | _ => []
  end.

(** Every call [c] makes satisfies [P]. *)
Definition calls_only {A} (P : Request -> Prop) (c : Async A) : Prop :=
  forall r, In r (fst c) -> P r.

(** When [c] returns, one of the calls it made satisfies [P]. *)
Definition returns_after {A} (P : Request -> Prop) (c : Async A) : Prop :=
  forall a, snd c = inr a -> exists r, In r (fst c) /\ P r.

(** [needle] occurs in [hay]. *)
Definition occurs_in (needle hay : string) : Prop :=
  exists pre post, hay = (pre ++ needle ++ post)%string.

Section ProtocolCalls.
Context {JSN : JsNumber}.

(** The calls one export can make, each with the condition under which
    the protocol makes it. *)
Definition protocol_call (fetch : Request -> Fetched) (sid tok : string)
    (d : ExtractedData) (sheetName : string) (r : Request) : Prop :=
  let a1 := formatSheetName sheetName in
  let fh := finalHeaders d in
  let existingHeaders := existingHeadersOf fetch sid tok sheetName in
  let mh := masterHeaders existingHeaders fh in
  r = GetSpreadsheet sid tok
  \/ (r = AddSheet sid tok sheetName
      /\ exists b, fetch (GetSpreadsheet sid tok) = Response true b
                   /\ find (String.eqb sheetName) (sheets b) = None)
  \/ r = GetValues sid tok (a1 ++ "!A1:Z1")%string
  \/ (r = PutValues sid tok (a1 ++ "!A1")%string [mh]
      /\ headersChanged existingHeaders fh = true)
  \/ r = AppendValues sid tok (a1 ++ "!A2")%string
                      (formattedRows mh fh (rowsToAppend d)).

End ProtocolCalls.

(** The three ranges of a sheet the protocol uses, as suffixes of the
    formatted sheet name. *)
Definition range_suffixes : list string := ["!A1:Z1"; "!A1"; "!A2"].

Section Tracking.
Context {JSN : JsNumber}.

(** The exports in flight and the Results shown as exporting go together. *)
Record tracked (w : World) : Prop := mkTracked {
  tasks_unique : NoDup (map task_id (exports w));
  tasks_created :
    forall t, In t (exports w) -> In (task_id t) (createdIds w);
  tasks_extracted :
    forall t, In t (exports w) -> ~ In (task_id t) (extractions w);
  exporting_tracked :
    forall r, In r (results w) ->
              (status r = EXPORTING
               <-> In (id r) (map task_id (exports w)))
}.

End Tracking.

Section MoreExamples.
Context {JSN : JsNumber}.

(** A document with a second table. *)
Definition twoTables : ExtractedData :=
  mkData [mkField "Date" (VString "2024-01-01")]
         [mkTable "Items" ["Item"; "Qty"] [mkRow ["Pen"; "3"]];
          mkTable "Taxes" ["Tax"] [mkRow ["VAT"]]].

(** One upload whose extraction is still in flight. *)
Definition uploading : World := run [ImageSelected 1000 "image-1"] initial.

(** A spreadsheet whose sheet ["Result 1"] holds the header row of the
    scenario's document, and that accepts every call. *)
Definition synced : Request -> Fetched :=
  fun _ => Response true (mkBody None ["Result 1"]
                                 (Some [["Date"; "Item"; "Qty"]])).

(** The rows the scenario's document is appended as on an empty sheet. *)
Definition invoiceRows : list (list (option string)) :=
  [[Some "2024-01-01"; Some "Pen"; Some "3"];
   [Some "2024-01-01"; Some "Book"; Some "1"]].

End MoreExamples.

(** Case analysis on every [match] of the goal. *)
Ltac by_cases :=
  repeat match goal with
         | |- context [match ?x with _ => _ end] => destruct x
         end;
  try reflexivity.

(** * Properties *)

Section SyncEngine.
Context {JSN : JsNumber}.

Lemma pad_while_padded (rowVals : list string) (n : nat) :
  pad_while rowVals n = padded rowVals n.
Proof.
  unfold padded.
  funelim (pad_while rowVals n).
  - match goal with IH : pad_while _ _ = _ ++ repeat _ _ |- _ => rewrite IH end.
    rewrite List.length_app, <- app_assoc. simpl.
    replace (n - List.length rowVals) with (S (n - (List.length rowVals + 1))) by lia.
    reflexivity.
  - replace (n - List.length rowVals) with 0 by lia.
    simpl. now rewrite app_nil_r.
Qed.

Lemma map_id_string (l : list string) : map (fun v => v) l = l.
Proof. apply map_id. Qed.

Lemma flatten_shape (d : ExtractedData) :
  match tables d with
  | [] =>
      finalHeaders d = map label (fields d) /\
      rowsToAppend d = [map (fun f => String_ (value f)) (fields d)]
  | primary :: _ =>
      finalHeaders d = map label (fields d) ++ headers primary /\
      rowsToAppend d =
        map (fun r => map (fun f => String_ (value f)) (fields d)
                      ++ padded (values r) (List.length (headers primary)))
            (rows primary)
  end.
Proof.
  unfold finalHeaders, rowsToAppend, globalHeaders, globalValues.
  destruct (tables d) as [|primary others] eqn:E; simpl.
  - split; reflexivity.
  - split; [reflexivity|].
    apply map_ext. intros r. now rewrite map_id_string, pad_while_padded.
Qed.

(** C3. Flattening: the header line is the field labels followed by the
    headers of the first table, if there is one; the rows are, with a
    table, one per row of the first table (the field values followed by
    that row's values padded with empty strings to the header count), and
    without a table the single row of field values.  The tables after the
    first play no part. *)
Theorem flatten_spec (d : ExtractedData) :
  match tables d with
  | [] =>
      finalHeaders d = map label (fields d) /\
      rowsToAppend d = [map (fun f => String_ (value f)) (fields d)]
  | primary :: others =>
      finalHeaders d = map label (fields d) ++ headers primary /\
      rowsToAppend d =
        map (fun r => map (fun f => String_ (value f)) (fields d)
                      ++ padded (values r) (List.length (headers primary)))
            (rows primary) /\
      forall others',
        finalHeaders (mkData (fields d) (primary :: others')) = finalHeaders d /\
        rowsToAppend (mkData (fields d) (primary :: others')) = rowsToAppend d
  end.
Proof.
  pose proof (flatten_shape d) as H.
  destruct (tables d) as [|primary others] eqn:E; [exact H|].
  destruct H as [Hh Hr]. split; [exact Hh|]. split; [exact Hr|].
  intros others'. unfold finalHeaders, rowsToAppend. rewrite E. simpl.
  split; reflexivity.
Qed.

(** *** Header union *)

Lemma filter_differs_comm (x y : string) (l : list string) :
  filter (differs x) (filter (differs y) l)
  = filter (differs y) (filter (differs x) l).
Proof.
  induction l as [|a l IH]; simpl; [reflexivity|].
  destruct (differs y a) eqn:Ey, (differs x a) eqn:Ex; simpl;
    rewrite ?Ey, ?Ex, IH; reflexivity.
Qed.

Lemma filter_differs_idem (x : string) (l : list string) :
  filter (differs x) (filter (differs x) l) = filter (differs x) l.
Proof.
  induction l as [|a l IH]; simpl; [reflexivity|].
  destruct (differs x a) eqn:Ex; simpl; rewrite ?Ex, IH; reflexivity.
Qed.

Lemma first_occurrences_filter (x : string) (l : list string) :
  first_occurrences (filter (differs x) l)
  = filter (differs x) (first_occurrences l).
Proof.
  induction l as [|a l IH]; simpl; [reflexivity|].
  destruct (differs x a) eqn:Ex; simpl.
  - rewrite ?Ex, IH. f_equal. apply filter_differs_comm.
  - rewrite ?Ex, IH.
    unfold differs in Ex. apply negb_false_iff, String.eqb_eq in Ex. subst a.
    symmetry. apply filter_differs_idem.
Qed.

Lemma includes_app (l : list string) (x h : string) :
  includes (l ++ [x]) h = includes l h || String.eqb h x.
Proof.
  unfold includes. rewrite existsb_app. simpl. now rewrite orb_false_r.
Qed.

Lemma includes_In (l : list string) (h : string) :
  includes l h = true <-> In h l.
Proof.
  unfold includes. rewrite existsb_exists. split.
  - intros (x & Hx & E). apply String.eqb_eq in E. now subst.
  - intros H. exists h. split; [assumption | apply String.eqb_refl].
Qed.

Lemma filter_unseen_step (acc : list string) (x : string) (l : list string) :
  filter (fun h => negb (includes (acc ++ [x]) h)) l
  = filter (differs x) (filter (fun h => negb (includes acc h)) l).
Proof.
  induction l as [|a l IH]; simpl; [reflexivity|].
  rewrite includes_app, negb_orb.
  destruct (includes acc a); simpl; [exact IH|].
  rewrite IH. unfold differs at 3. destruct (String.eqb a x); reflexivity.
Qed.

Lemma union_loop_fst (fh acc : list string) (b : bool) :
  fst (union_loop fh (acc, b)) = acc ++ unseen acc fh.
Proof.
  revert acc b. induction fh as [|h rest IH]; intros acc b; simpl.
  - unfold unseen. simpl. now rewrite app_nil_r.
  - unfold unseen in *. simpl.
    destruct (includes acc h) eqn:E; simpl.
    + apply IH.
    + rewrite IH, <- app_assoc. simpl. do 2 f_equal.
      rewrite filter_unseen_step. apply first_occurrences_filter.
Qed.

Lemma first_occurrences_In (l : list string) (x : string) :
  In x (first_occurrences l) <-> In x l.
Proof.
  induction l as [|a l IH]; simpl; [tauto|].
  rewrite filter_In, IH. unfold differs.
  destruct (String.eqb x a) eqn:E.
  - apply String.eqb_eq in E. subst. tauto.
  - apply String.eqb_neq in E. simpl. intuition congruence.
Qed.

Lemma NoDup_filter_string (f : string -> bool) (l : list string) :
  NoDup l -> NoDup (filter f l).
Proof.
  induction 1 as [|a l Hin Hnd IH]; simpl; [constructor|].
  destruct (f a); [constructor|]; trivial.
  rewrite filter_In. tauto.
Qed.

Lemma first_occurrences_NoDup (l : list string) :
  NoDup (first_occurrences l).
Proof.
  induction l as [|a l IH]; simpl; constructor.
  - rewrite filter_In. unfold differs. intros [_ H].
    now rewrite String.eqb_refl in H.
  - now apply NoDup_filter_string.
Qed.

(** C2. The reconciled header line is the existing remote headers, as
    they are and in their order, followed by the local headers that are not
    among them (compared as strings), each once, in the order in which they
    are first encountered in the local header line. *)
Theorem masterHeaders_spec (existingHeaders fh : list string) :
  masterHeaders existingHeaders fh
  = existingHeaders ++ unseen existingHeaders fh
  /\ NoDup (unseen existingHeaders fh)
  /\ forall h, In h (unseen existingHeaders fh)
               <-> In h fh /\ ~ In h existingHeaders.
Proof.
  split; [apply union_loop_fst|]. split; [apply first_occurrences_NoDup|].
  intros h. unfold unseen. rewrite first_occurrences_In, filter_In.
  rewrite negb_true_iff, <- not_true_iff_false, includes_In. tauto.
Qed.

(** *** Reprojection *)

Lemma indexOf_lower (l : list string) (h : string) : (-1 <= indexOf l h)%Z.
Proof.
  induction l as [|x l IH]; simpl; [lia|].
  destruct (String.eqb x h); [lia|].
  destruct (indexOf l h =? -1)%Z; lia.
Qed.

Lemma indexOf_head (l : list string) (h : string) : indexOf (h :: l) h = 0%Z.
Proof. simpl. now rewrite String.eqb_refl. Qed.

Lemma indexOf_skip (pre l : list string) (h : string) :
  ~ In h pre ->
  indexOf (pre ++ l) h
  = if (indexOf l h =? -1)%Z then (-1)%Z
    else (Z.of_nat (List.length pre) + indexOf l h)%Z.
Proof.
  induction pre as [|x pre IH]; intros Hn.
  - simpl. destruct (indexOf l h =? -1)%Z eqn:E; [|reflexivity].
    now apply Z.eqb_eq in E.
  - cbn [app indexOf List.length].
    destruct (String.eqb x h) eqn:E.
    + apply String.eqb_eq in E. subst. exfalso. apply Hn. now left.
    + rewrite IH by (intros H; apply Hn; now right).
      pose proof (indexOf_lower l h).
      destruct (indexOf l h =? -1)%Z eqn:E1; [reflexivity|].
      apply Z.eqb_neq in E1.
      destruct (_ + _ =? -1)%Z eqn:E2; [apply Z.eqb_eq in E2|]; lia.
Qed.

Lemma reproject_aligned (pre fh rpre row : list string) :
  NoDup (pre ++ fh) ->
  List.length rpre = List.length pre ->
  List.length row = List.length fh ->
  map (fun header =>
         let localIndex := indexOf (pre ++ fh) header in
         if negb (localIndex =? -1)%Z
         then nth_error (rpre ++ row) (Z.to_nat localIndex)
         else Some EmptyString) fh
  = map Some row.
Proof.
  revert pre rpre row.
  induction fh as [|h fh IH]; intros pre rpre row Hnd Hpre Hrow;
    destruct row as [|v row]; try discriminate; [reflexivity|].
  cbn [map]. f_equal.
  - cbv zeta. rewrite indexOf_skip, indexOf_head.
    + simpl. rewrite Z.add_0_r, Nat2Z.id, <- Hpre.
      rewrite nth_error_app2 by lia. rewrite Nat.sub_diag.
      destruct (Z.of_nat (List.length rpre) =? -1)%Z eqn:E; [|reflexivity].
      apply Z.eqb_eq in E. lia.
    + apply NoDup_remove_2 in Hnd. intros H. apply Hnd, in_or_app. now left.
  - specialize (IH (pre ++ [h]) (rpre ++ [v]) row).
    rewrite <- !app_assoc in IH. apply IH.
    + exact Hnd.
    + rewrite !List.length_app. simpl. lia.
    + simpl in Hrow. lia.
Qed.

Lemma reproject_NoDup (fh row : list string) :
  NoDup fh -> List.length row = List.length fh ->
  reproject fh fh row = map Some row.
Proof.
  intros Hnd Hlen. exact (reproject_aligned [] fh [] row Hnd eq_refl Hlen).
Qed.

Lemma padded_length (vals : list string) (n : nat) :
  List.length (padded vals n) = Nat.max (List.length vals) n.
Proof. unfold padded. rewrite List.length_app, repeat_length. lia. Qed.

Lemma filter_differs_absent (x : string) (l : list string) :
  ~ In x l -> filter (differs x) l = l.
Proof.
  induction l as [|a l IH]; simpl; [reflexivity|]. intros H.
  unfold differs at 1. destruct (String.eqb a x) eqn:E; simpl.
  - apply String.eqb_eq in E. tauto.
  - f_equal. apply IH. tauto.
Qed.

Lemma first_occurrences_distinct (l : list string) :
  NoDup l -> first_occurrences l = l.
Proof.
  induction 1 as [|x l Hx Hl IH]; simpl; [reflexivity|].
  now rewrite IH, filter_differs_absent.
Qed.

(** On a sheet without headers the union of distinct local headers is the
    local header line. *)
Lemma masterHeaders_fresh (fh : list string) :
  NoDup fh -> masterHeaders [] fh = fh.
Proof.
  intros H. unfold masterHeaders. rewrite union_loop_fst. unfold unseen.
  simpl. rewrite <- (first_occurrences_distinct fh H) at 2. f_equal.
  clear H. induction fh as [|h fh IH]; simpl; [reflexivity|]. now rewrite IH.
Qed.

(** C1, as amended. When the flattened header line has no repeated entry
    and no row of the first table has more values than the table has
    headers, the header union on a sheet without headers is the flattened
    header line itself, and reprojecting onto it returns every flattened
    row as it is. *)
Theorem reproject_identity (d : ExtractedData) :
  NoDup (finalHeaders d) ->
  (forall primary others, tables d = primary :: others ->
     Forall (fun r => List.length (values r) <= List.length (headers primary))
            (rows primary)) ->
  masterHeaders [] (finalHeaders d) = finalHeaders d
  /\ formattedRows (finalHeaders d) (finalHeaders d) (rowsToAppend d)
     = map (map Some) (rowsToAppend d).
Proof.
  intros Hnd Hrows. split; [now apply masterHeaders_fresh|].
  unfold formattedRows. apply map_ext_in.
  intros row Hin. apply reproject_NoDup; [assumption|].
  pose proof (flatten_shape d) as Hf.
  destruct (tables d) as [|primary others] eqn:E.
  - destruct Hf as [Hh Hr]. rewrite Hr in Hin. rewrite Hh.
    destruct Hin as [<-|[]]. now rewrite !length_map.
  - destruct Hf as (Hh & Hr). rewrite Hr in Hin. rewrite Hh.
    apply in_map_iff in Hin. destruct Hin as (r & <- & Hin).
    specialize (Hrows primary others eq_refl).
    rewrite Forall_forall in Hrows. specialize (Hrows r Hin).
    rewrite !List.length_app, padded_length, !length_map. lia.
Qed.

(** The sync flattening never writes a row shorter than the header line. *)
Lemma rowsToAppend_width (d : ExtractedData) :
  Forall (fun row => List.length (finalHeaders d) <= List.length row)
         (rowsToAppend d).
Proof.
  pose proof (flatten_shape d) as Hf.
  destruct (tables d) as [|primary others].
  - destruct Hf as [-> ->]. repeat constructor. now rewrite !length_map.
  - destruct Hf as (-> & ->). apply Forall_forall. intros row Hin.
    apply in_map_iff in Hin. destruct Hin as (r & <- & _).
    rewrite !List.length_app, padded_length, !length_map. lia.
Qed.

End SyncEngine.

Example flatten_invoice :
  finalHeaders invoice = ["Date"; "Item"; "Qty"] /\
  rowsToAppend invoice =
    [["2024-01-01"; "Pen"; "3"]; ["2024-01-01"; "Book"; "1"]].
Proof. split; reflexivity. Qed.

Lemma reproject_identity_invoice :
  NoDup (finalHeaders invoice)
  /\ masterHeaders [] (finalHeaders invoice) = finalHeaders invoice
  /\ formattedRows (finalHeaders invoice) (finalHeaders invoice)
                   (rowsToAppend invoice)
     = map (map Some) (rowsToAppend invoice).
Proof.
  assert (Hnd : NoDup (finalHeaders invoice)).
  { repeat constructor; simpl; intuition discriminate. }
  split; [exact Hnd|].
  apply (reproject_identity invoice Hnd).
  intros primary others E. injection E as <- _.
  repeat constructor.
Defined.

(** C1, as stated, fails: with a repeated label the second column takes
    the first column's value, and a row longer than the header line loses
    its last cells. *)
Lemma reproject_not_identity :
  formattedRows (finalHeaders duplicateLabels) (finalHeaders duplicateLabels)
                (rowsToAppend duplicateLabels)
  <> map (map Some) (rowsToAppend duplicateLabels)
  /\
  formattedRows (finalHeaders longRow) (finalHeaders longRow)
                (rowsToAppend longRow)
  <> map (map Some) (rowsToAppend longRow).
Proof. split; vm_compute; discriminate. Qed.

Example reproject_duplicateLabels :
  rowsToAppend duplicateLabels = [["1"; "2"]] /\
  formattedRows (finalHeaders duplicateLabels) (finalHeaders duplicateLabels)
                (rowsToAppend duplicateLabels)
  = [[Some "1"; Some "1"]].
Proof. split; reflexivity. Qed.

Example union_scenario :
  masterHeaders ["Date"; "Vendor"] ["Date"; "Item"] = ["Date"; "Vendor"; "Item"]
  /\ reproject ["Date"; "Vendor"; "Item"] ["Date"; "Item"] ["2024-01-01"; "Pen"]
     = [Some "2024-01-01"; Some EmptyString; Some "Pen"].
Proof. split; reflexivity. Qed.

(** ** The session store *)

Section SessionStore.
Context {JSN : JsNumber}.

Lemma has_id_In (i : string) (w : World) :
  has_id i w = true <-> exists r, In r (results w) /\ id r = i.
Proof.
  unfold has_id. rewrite existsb_exists. split; intros (r & Hr & E);
    exists r; (split; [assumption|]); now apply String.eqb_eq.
Qed.

Lemma has_id_ids (i : string) (w : World) :
  has_id i w = true <-> In i (map id (results w)).
Proof.
  rewrite has_id_In, in_map_iff. split; intros (r & A & B); exists r; tauto.
Qed.

Lemma results_updateResult (i : string) (u : Partial) (w : World) :
  results (updateResult i u w)
  = map (fun r => if String.eqb (id r) i then merge r u else r) (results w).
Proof. reflexivity. Qed.

Lemma ids_updateResult (i : string) (u : Partial) (w : World) :
  p_id u = None ->
  map id (results (updateResult i u w)) = map id (results w).
Proof.
  intros Hu. rewrite results_updateResult, map_map. apply map_ext.
  intros r. destruct (String.eqb (id r) i); [|reflexivity].
  unfold merge. simpl. now rewrite Hu.
Qed.

Lemma active_present_ids (w w' : World) :
  map id (results w') = map id (results w) ->
  activeResultId w' = activeResultId w ->
  active_present w -> active_present w'.
Proof.
  unfold active_present. intros Hids Ha. rewrite Ha.
  destruct (activeResultId w) as [a|]; [|trivial].
  now rewrite !has_id_ids, Hids.
Qed.

Lemma last_In {A} (l : list A) (x d : A) : In (last (x :: l) d) (x :: l).
Proof.
  revert x. induction l as [|y l IH]; intros x; [now left|].
  right. apply (IH y).
Qed.

Lemma last_snoc {A} (l : list A) (x d : A) :
  exists front, x :: l = front ++ [last (x :: l) d].
Proof.
  revert x. induction l as [|y l IH]; intros x.
  - now exists [].
  - destruct (IH y) as (front & E). exists (x :: front).
    change (last (x :: y :: l) d) with (last (y :: l) d).
    cbn [app]. f_equal. exact E.
Qed.

Lemma active_present_close (i : string) (w : World) :
  active_present w -> active_present (handleCloseTab i w).
Proof.
  unfold active_present, handleCloseTab. intros H.
  destruct (is_active_id (activeResultId w) i) eqn:Ea.
  - destruct (filter _ (results w)) as [|r0 rest] eqn:Ef; simpl; [trivial|].
    apply has_id_In. exists (last (r0 :: rest) r0). simpl.
    split; [|reflexivity]. apply (last_In rest r0 r0).
  - simpl. destruct (activeResultId w) as [a|]; [|trivial].
    simpl in Ea. apply has_id_In in H. destruct H as (r & Hr & E).
    apply has_id_In. exists r. simpl. split; [|assumption].
    apply filter_In. split; [assumption|]. subst a.
    now rewrite String.eqb_sym, Ea.
Qed.

Lemma handle_active_present (e : Event) (w : World) :
  enabled w e = true -> active_present w -> active_present (handle e w).
Proof.
  intros He H. destruct e; simpl in *.
  - (* ImageSelected *)
    unfold active_present. simpl. apply has_id_In. eexists. split.
    + simpl. apply in_or_app. right. now left.
    + reflexivity.
  - (* ImageDropped *)
    unfold active_present. simpl. apply has_id_In. eexists. split.
    + simpl. apply in_or_app. right. now left.
    + reflexivity.
  - unfold extractionResolved.
    destruct (nth_error (extractions w) k); [|assumption].
    eapply active_present_ids; [| |exact H]; [|reflexivity].
    now rewrite ids_updateResult.
  - unfold extractionRejected.
    destruct (nth_error (extractions w) k); [|assumption].
    eapply active_present_ids; [| |exact H]; [|reflexivity].
    now rewrite ids_updateResult.
  - exact He.
  - now apply active_present_close.
  - eapply active_present_ids; [| |exact H]; [|reflexivity].
    unfold handleRenameTab. now rewrite ids_updateResult.
  - unfold dismissError. destruct (activeResult w); [|assumption].
    eapply active_present_ids; [| |exact H]; [|reflexivity].
    now rewrite ids_updateResult.
  - unfold editData. destruct (activeResultId w) as [[|c t]|] eqn:E;
      try assumption.
    eapply active_present_ids; [| |exact H]; [|reflexivity].
    now rewrite ids_updateResult.
  - unfold handleExportToSheets, handleGoogleLogin.
    destruct (is_empty (spreadsheetId (sheetConfig w))); [exact H|].
    destruct (googleAccessToken w) as [[|c t]|].
    + destruct confirmLogin; [|exact H].
      destruct (is_empty (clientId (sheetConfig w))); [exact H|].
      destruct (negb loaded); exact H.
    + destruct (activeResult w); [|exact H].
      eapply active_present_ids; [| |exact H]; [|reflexivity].
      unfold setExports; cbn [results]. now rewrite ids_updateResult.
    + destruct confirmLogin; [|exact H].
      destruct (is_empty (clientId (sheetConfig w))); [exact H|].
      destruct (negb loaded); exact H.
  - unfold exportSettled. destruct (nth_error (exports w) k) as [t|]; [|exact H].
    destruct (exportToGoogleSheet _ _ _ _ _) as [log [m|u]].
    + unfold exportFailed.
      destruct (_ || _);
        (eapply active_present_ids; [| |exact H]; [|reflexivity]);
        unfold alert, setGoogleAccessToken; cbn [results];
        now rewrite ids_updateResult.
    + eapply active_present_ids; [| |exact H]; [|reflexivity].
      unfold exportSucceeded. now rewrite ids_updateResult.
  - unfold handleGoogleLogin.
    destruct (is_empty (clientId (sheetConfig w))); [exact H|].
    destruct (negb loaded); exact H.
  - unfold tokenCallback. destruct (negb (is_empty access_token)); exact H.
  - exact H.
  - exact H.
  - exact H.
Qed.

Lemma reachable_active_present (w : World) :
  reachable w -> active_present w.
Proof.
  induction 1 as [|w e Hr IH He]; [exact I|].
  now apply handle_active_present.
Qed.

Lemma active_present_one_active (w : World) :
  active_present w -> one_active w.
Proof.
  unfold active_present, one_active, activeResult.
  destruct (activeResultId w) as [a|]; simpl.
  - intros H. apply has_id_In in H. destruct H as (r & Hr & E).
    destruct (find (fun r0 => String.eqb (id r0) a) (results w)) as [r'|] eqn:F.
    + exists r'. apply find_some in F. destruct F as [F1 F2].
      apply String.eqb_eq in F2. tauto.
    + exfalso. apply (find_none _ _ F) in Hr.
      rewrite E, String.eqb_refl in Hr. discriminate.
  - intros _. induction (results w) as [|r l IH]; [reflexivity|exact IH].
Qed.

Lemma results_handleCloseTab (i : string) (w : World) :
  results (handleCloseTab i w)
  = filter (fun r => negb (String.eqb (id r) i)) (results w).
Proof.
  unfold handleCloseTab.
  destruct (is_active_id (activeResultId w) i); [|reflexivity].
  destruct (filter _ (results w)); reflexivity.
Qed.

Lemma is_active_id_Some (a : option string) (i : string) :
  is_active_id a i = true <-> a = Some i.
Proof.
  destruct a as [x|]; simpl; [|split; discriminate].
  rewrite String.eqb_eq. split; congruence.
Qed.

(** C7. Closing a tab whose id is in the collection removes the Result
    with that id and keeps the others in their order.  If it was the active
    one and Results remain, the last of the remaining ones becomes active;
    if none remains, the active id becomes [null]; if it was not the active
    one, the active id stays as it is. *)
Theorem closeResult_spec (w : World) (i : string) :
  active_present w ->
  has_id i w = true ->
  let w' := handleCloseTab i w in
  results w' = filter (fun r => negb (String.eqb (id r) i)) (results w)
  /\ has_id i w' = false
  /\ (activeResultId w = Some i -> results w' <> [] ->
      exists front r,
        results w' = front ++ [r] /\ activeResultId w' = Some (id r))
  /\ (results w' = [] -> activeResultId w' = None)
  /\ (activeResultId w <> Some i -> activeResultId w' = activeResultId w).
Proof.
  intros Hinv Hi w'. subst w'.
  pose proof (results_handleCloseTab i w) as Hres.
  split; [exact Hres|]. split; [|split; [|split]].
  - apply not_true_iff_false. rewrite has_id_In, Hres.
    intros (r & Hr & E). apply filter_In in Hr. destruct Hr as [_ Hr].
    now rewrite E, String.eqb_refl in Hr.
  - intros Ha Hne. rewrite Hres in *. unfold handleCloseTab.
    apply is_active_id_Some in Ha. rewrite Ha.
    destruct (filter _ (results w)) as [|r0 rest]; [congruence|].
    destruct (last_snoc rest r0 r0) as (front & E).
    exists front, (last (r0 :: rest) r0). split; [exact E|reflexivity].
  - intros Hnil. rewrite Hres in Hnil. unfold handleCloseTab.
    destruct (is_active_id (activeResultId w) i) eqn:Ea.
    + now rewrite Hnil.
    + simpl. unfold active_present in Hinv.
      destruct (activeResultId w) as [a|]; [|reflexivity].
      exfalso. apply has_id_In in Hinv. destruct Hinv as (r & Hr & E).
      assert (Hin : In r (filter (fun r => negb (String.eqb (id r) i))
                                 (results w))).
      { apply filter_In. split; [assumption|]. simpl in Ea. subst a.
        now rewrite String.eqb_sym, Ea. }
      now rewrite Hnil in Hin.
  - intros Hna. unfold handleCloseTab.
    destruct (is_active_id (activeResultId w) i) eqn:Ea.
    + now apply is_active_id_Some in Ea.
    + reflexivity.
Qed.

(** *** Results that hold data have been extracted *)

Lemma remove_nth_In {A} (k : nat) (l : list A) (y : A) :
  In y (remove_nth k l) -> In y l.
Proof.
  revert k. induction l as [|x l IH]; intros [|k]; simpl; try tauto.
  intros [H|H]; [tauto|]. right. eauto.
Qed.

Lemma remove_nth_NoDup {A} (k : nat) (l : list A) :
  NoDup l -> NoDup (remove_nth k l).
Proof.
  intros H. revert k. induction H as [|x l Hx Hl IH]; intros [|k]; simpl;
    try constructor; try assumption; [|apply IH].
  intros Hin. apply Hx. eapply remove_nth_In. eassumption.
Qed.

Lemma remove_nth_gone {A} (k : nat) (l : list A) (x : A) :
  NoDup l -> nth_error l k = Some x -> ~ In x (remove_nth k l).
Proof.
  intros H. revert k. induction H as [|y l Hy Hl IH]; intros k; simpl.
  - destruct k; discriminate.
  - destruct k; simpl.
    + intros E. injection E as ->. assumption.
    + intros E [H|H].
      * subst y. apply Hy. eapply nth_error_In. eassumption.
      * now apply (IH k).
Qed.

Lemma unique_by_id (l : list ProcessedResult) (r r' : ProcessedResult) :
  NoDup (map id l) -> In r l -> In r' l -> id r = id r' -> r = r'.
Proof.
  induction l as [|x l IH]; simpl; [tauto|].
  intros Hnd Hr Hr' E. inversion Hnd as [|? ? Hx Hl]; subst.
  destruct Hr as [<-|Hr], Hr' as [<-|Hr']; trivial.
  - exfalso. apply Hx. rewrite E. now apply in_map.
  - exfalso. apply Hx. rewrite <- E. now apply in_map.
  - now apply IH.
Qed.

Lemma activeResult_In (w : World) (r : ProcessedResult) :
  activeResult w = Some r ->
  In r (results w) /\ activeResultId w = Some (id r).
Proof.
  unfold activeResult. intros F. apply find_some in F.
  destruct F as [F1 F2]. now apply is_active_id_Some in F2.
Qed.

Lemma consistent_same (w w' : World) :
  results w' = results w ->
  extractions w' = extractions w ->
  createdIds w' = createdIds w ->
  consistent w -> consistent w'.
Proof.
  intros Hr He Hc [A B C D E F].
  constructor; rewrite ?Hr, ?He, ?Hc; assumption.
Qed.

Lemma consistent_map (f : ProcessedResult -> ProcessedResult) (w w' : World) :
  consistent w ->
  results w' = map f (results w) ->
  (forall r, id (f r) = id r) ->
  createdIds w' = createdIds w ->
  NoDup (extractions w') ->
  (forall x, In x (extractions w') -> In x (extractions w)) ->
  (forall r, In r (results w) ->
     (In (id r) (extractions w') -> has_data (data (f r)) = false)
     /\ extracted (f r)) ->
  consistent w'.
Proof.
  intros [A B C D E F] Hr Hid Hc Hnd Hsub Hf.
  constructor; rewrite ?Hr, ?Hc.
  - rewrite map_map. erewrite map_ext; [exact A|]. exact Hid.
  - exact Hnd.
  - intros r' Hin. apply in_map_iff in Hin. destruct Hin as (r & <- & Hin).
    rewrite Hid. now apply C.
  - intros x Hx. apply D. now apply Hsub.
  - intros r' Hin. apply in_map_iff in Hin. destruct Hin as (r & <- & Hin).
    rewrite Hid. now apply Hf.
  - intros r' Hin. apply in_map_iff in Hin. destruct Hin as (r & <- & Hin).
    now apply Hf.
Qed.

(** An update of the Results with id [i] that leaves their data alone and
    puts them in a status that fits. *)
Lemma consistent_update (i : string) (u : Partial) (w w' : World) :
  consistent w ->
  results w' = results (updateResult i u w) ->
  extractions w' = extractions w ->
  createdIds w' = createdIds w ->
  p_id u = None -> p_data u = None ->
  (forall r, In r (results w) -> id r = i -> extracted (merge r u)) ->
  consistent w'.
Proof.
  intros Hc Hr He Hcr Hu Hd Hx.
  apply (consistent_map
           (fun r => if String.eqb (id r) i then merge r u else r) w w' Hc);
    try assumption.
  - intros r. destruct (String.eqb (id r) i); [|reflexivity].
    unfold merge. simpl. now rewrite Hu.
  - rewrite He. apply Hc.
  - rewrite He. trivial.
  - intros r Hin. rewrite He. destruct (String.eqb (id r) i) eqn:E.
    + split.
      * intros Hp. unfold merge. simpl. rewrite Hd. simpl.
        now apply (analyzing_empty w Hc).
      * apply Hx; [assumption|]. now apply String.eqb_eq.
    + split.
      * now apply (analyzing_empty w Hc).
      * now apply (results_extracted w Hc).
Qed.

Lemma extracted_status (r : ProcessedResult) (u : Partial) :
  p_status u = Some SUCCESS \/ p_status u = Some EXPORTING ->
  extracted (merge r u).
Proof.
  intros H _. unfold merge. simpl. destruct H as [-> | ->]; simpl; tauto.
Qed.

Lemma extracted_no_data (r : ProcessedResult) (u : Partial) :
  p_data u = None -> has_data (data r) = false -> extracted (merge r u).
Proof.
  intros Hd Hn. unfold extracted, merge. simpl. rewrite Hd. simpl.
  rewrite Hn. discriminate.
Qed.

Lemma extracted_same (r : ProcessedResult) (u : Partial) :
  p_data u = None -> p_status u = None -> extracted r -> extracted (merge r u).
Proof.
  intros Hd Hs. unfold extracted, merge. simpl. now rewrite Hd, Hs.
Qed.

Lemma createdIds_handle (e : Event) (w : World) :
  createdIds (handle e w) = createdIds w
  \/ exists now base64,
       (e = ImageSelected now base64 \/ e = ImageDropped now base64) /\
       createdIds (handle e w)
       = createdIds w ++ [("result-" ++ String_of_N now)%string].
Proof.
  destruct e; try (left; simpl; reflexivity).
  - right. exists now, base64. split; [now left|reflexivity].
  - right. exists now, base64. split; [now right|reflexivity].
  - left. simpl. unfold extractionResolved. by_cases.
  - left. simpl. unfold extractionRejected. by_cases.
  - left. simpl. unfold handleCloseTab. by_cases.
  - left. simpl. unfold dismissError. by_cases.
  - left. simpl. unfold editData. by_cases.
  - left. simpl. unfold handleExportToSheets, handleGoogleLogin. by_cases.
  - left. simpl. unfold exportSettled, exportFailed. by_cases.
  - left. simpl. unfold handleGoogleLogin. by_cases.
  - left. simpl. unfold tokenCallback. by_cases.
Qed.

Lemma createdIds_NoDup_handle (e : Event) (w : World) :
  NoDup (createdIds (handle e w)) -> NoDup (createdIds w).
Proof.
  destruct (createdIds_handle e w) as [-> | (now & b & _ & ->)]; [trivial|].
  intros H. apply NoDup_remove_1 in H. now rewrite app_nil_r in H.
Qed.

Lemma consistent_image (now : N) (base64 : string) (w : World) :
  consistent w ->
  NoDup (createdIds (handleImageSelect now base64 w)) ->
  consistent (handleImageSelect now base64 w).
Proof.
  intros [A B C D E F] Hnd.
  unfold handleImageSelect, setExtractions, record_id, setActiveResultId,
    setResults in *.
  cbn [results extractions createdIds] in *.
  set (newId := ("result-" ++ String_of_N now)%string) in *.
  apply NoDup_remove_2 in Hnd. rewrite app_nil_r in Hnd.
  constructor; cbn [results extractions createdIds].
  - rewrite map_app. simpl. apply NoDup_app; [assumption|now repeat constructor|].
    intros x Hx [<-|[]]. apply Hnd. apply in_map_iff in Hx.
    destruct Hx as (r & Er & Hr). rewrite <- Er. now apply C.
  - apply NoDup_app; [assumption|now repeat constructor|].
    intros x Hx [<-|[]]. apply Hnd. now apply D.
  - intros r Hr. apply in_or_app. apply in_app_or in Hr.
    destruct Hr as [Hr|[<-|[]]]; [left; now apply C|right; now left].
  - intros x Hx. apply in_or_app. apply in_app_or in Hx.
    destruct Hx as [Hx|[<-|[]]]; [left; now apply D|right; now left].
  - intros r Hr Hx. apply in_app_or in Hr. destruct Hr as [Hr|[<-|[]]].
    + apply E; [assumption|]. apply in_app_or in Hx.
      destruct Hx as [Hx|[Hx|[]]]; [assumption|].
      exfalso. apply Hnd. rewrite Hx. now apply C.
    + reflexivity.
  - intros r Hr. apply in_app_or in Hr. destruct Hr as [Hr|[<-|[]]].
    + now apply F.
    + intros H. discriminate H.
Qed.

Lemma consistent_drop (now : N) (base64 : string) (w : World) :
  consistent w ->
  NoDup (createdIds (handleImageDrop now base64 w)) ->
  consistent (handleImageDrop now base64 w).
Proof.
  intros [A B C D E F] Hnd.
  unfold handleImageDrop, setExtractions, record_id, setActiveResultId,
    setResults in *.
  cbn [results extractions createdIds] in *.
  set (newId := ("result-" ++ String_of_N now)%string) in *.
  apply NoDup_remove_2 in Hnd. rewrite app_nil_r in Hnd.
  constructor; cbn [results extractions createdIds].
  - rewrite map_app. simpl. apply NoDup_app; [assumption|now repeat constructor|].
    intros x Hx [<-|[]]. apply Hnd. apply in_map_iff in Hx.
    destruct Hx as (r & Er & Hr). rewrite <- Er. now apply C.
  - apply NoDup_app; [assumption|now repeat constructor|].
    intros x Hx [<-|[]]. apply Hnd. now apply D.
  - intros r Hr. apply in_or_app. apply in_app_or in Hr.
    destruct Hr as [Hr|[<-|[]]]; [left; now apply C|right; now left].
  - intros x Hx. apply in_or_app. apply in_app_or in Hx.
    destruct Hx as [Hx|[<-|[]]]; [left; now apply D|right; now left].
  - intros r Hr Hx. apply in_app_or in Hr. destruct Hr as [Hr|[<-|[]]].
    + apply E; [assumption|]. apply in_app_or in Hx.
      destruct Hx as [Hx|[Hx|[]]]; [assumption|].
      exfalso. apply Hnd. rewrite Hx. now apply C.
    + reflexivity.
  - intros r Hr. apply in_app_or in Hr. destruct Hr as [Hr|[<-|[]]].
    + now apply F.
    + intros H. discriminate H.
Qed.

Lemma consistent_filter (f : ProcessedResult -> bool) (w w' : World) :
  consistent w ->
  results w' = filter f (results w) ->
  extractions w' = extractions w ->
  createdIds w' = createdIds w ->
  consistent w'.
Proof.
  intros [A B C D E F] Hr He Hc.
  assert (Hsub : forall r, In r (filter f (results w)) -> In r (results w)).
  { intros r Hin. now apply filter_In in Hin. }
  constructor; rewrite ?Hr, ?He, ?Hc; auto.
  clear - A. induction (results w) as [|r l IH]; simpl; [constructor|].
  simpl in A. inversion A as [|? ? Hx Hl]; subst.
  destruct (f r); simpl; [constructor|]; auto.
  intros Hin. apply Hx. apply in_map_iff in Hin.
  destruct Hin as (r' & E' & Hin). apply filter_In in Hin.
  apply in_map_iff. exists r'. tauto.
Qed.

Lemma consistent_extractions (k : nat) (x : string) (u : Partial) (w : World) :
  consistent w ->
  nth_error (extractions w) k = Some x ->
  p_id u = None ->
  (forall r, In r (results w) -> id r = x -> extracted (merge r u)) ->
  consistent
    (updateResult x u (setExtractions (remove_nth k (extractions w)) w)).
Proof.
  intros Hc Hk Hu Hx.
  apply (consistent_map
           (fun r => if String.eqb (id r) x then merge r u else r) w _ Hc);
    try reflexivity.
  - intros r. destruct (String.eqb (id r) x); [|reflexivity].
    unfold merge. simpl. now rewrite Hu.
  - simpl. apply remove_nth_NoDup, Hc.
  - simpl. intros y. apply remove_nth_In.
  - simpl. intros r Hin. destruct (String.eqb (id r) x) eqn:E.
    + apply String.eqb_eq in E. split; [|now apply Hx].
      intros Hp. exfalso. rewrite E in Hp.
      apply (remove_nth_gone k (extractions w) x); trivial. apply Hc.
    + split; [|now apply (results_extracted w Hc)].
      intros Hp. apply (analyzing_empty w Hc); [assumption|].
      eapply remove_nth_In. eassumption.
Qed.

Lemma hasData_active (w : World) :
  hasData w = true ->
  exists r, activeResult w = Some r /\ has_data (data r) = true.
Proof.
  unfold hasData. destruct (activeResult w) as [r|]; [|discriminate].
  intros H. now exists r.
Qed.

Lemma handle_consistent (e : Event) (w : World) :
  enabled w e = true ->
  consistent w ->
  NoDup (createdIds (handle e w)) ->
  consistent (handle e w).
Proof.
  intros He Hc Hnd. destruct e; simpl in *.
  - now apply consistent_image.
  - now apply consistent_drop.
  - unfold extractionResolved.
    destruct (nth_error (extractions w) k) as [x|] eqn:Hk; [|assumption].
    apply consistent_extractions; trivial.
    intros r _ _. apply extracted_status. now left.
  - unfold extractionRejected.
    destruct (nth_error (extractions w) k) as [x|] eqn:Hk; [|assumption].
    apply consistent_extractions; trivial.
    intros r Hr E. apply extracted_no_data; [reflexivity|].
    apply (analyzing_empty w Hc); [assumption|].
    rewrite E. eapply nth_error_In. eassumption.
  - now apply (consistent_same w).
  - apply (consistent_filter (fun r => negb (String.eqb (id r) i)) w _ Hc).
    + apply results_handleCloseTab.
    + unfold handleCloseTab. by_cases.
    + unfold handleCloseTab. by_cases.
  - apply (consistent_update i (update_name newName) w); trivial.
    intros r Hr _. apply extracted_same; trivial.
    now apply (results_extracted w Hc).
  - unfold dismissError, active_status_is in *.
    destruct (activeResult w) as [r0|] eqn:Ha; [|assumption].
    apply (consistent_update (id r0) (update_status IDLE) w); trivial.
    intros r Hr E. apply extracted_no_data; [reflexivity|].
    apply activeResult_In in Ha. destruct Ha as [Hin _].
    assert (r = r0) as -> by (eapply unique_by_id; eauto; apply Hc).
    pose proof (results_extracted w Hc r0 Hin) as Hx. unfold extracted in Hx.
    destruct (has_data (data r0)); [|reflexivity].
    destruct (status r0); try discriminate He;
      destruct (Hx eq_refl); discriminate.
  - apply hasData_active in He. destruct He as (r0 & Ha & Hd).
    apply activeResult_In in Ha. destruct Ha as [Hin Ha].
    unfold editData. rewrite Ha.
    destruct (id r0) as [|c t] eqn:Ei; [assumption|]. rewrite <- Ei.
    apply (consistent_map
             (fun r => if String.eqb (id r) (id r0)
                       then merge r (update_data newData) else r) w _ Hc);
      try reflexivity.
    + intros r. now destruct (String.eqb (id r) (id r0)).
    + apply Hc.
    + trivial.
    + intros r Hr. destruct (String.eqb (id r) (id r0)) eqn:E.
      * apply String.eqb_eq in E.
        assert (r = r0) as -> by (eapply unique_by_id; eauto; apply Hc).
        split.
        -- intros Hp. pose proof (analyzing_empty w Hc r0 Hin Hp). congruence.
        -- intros _. simpl. now apply (results_extracted w Hc r0 Hin).
      * split; [now apply (analyzing_empty w Hc)
               |now apply (results_extracted w Hc)].
  - unfold handleExportToSheets, handleGoogleLogin in *.
    destruct (is_empty (spreadsheetId (sheetConfig w)));
      [now apply (consistent_same w)|].
    destruct (googleAccessToken w) as [[|c t]|].
    + destruct confirmLogin; [|assumption].
      destruct (is_empty (clientId (sheetConfig w)));
        [now apply (consistent_same w)|].
      destruct (negb loaded); [now apply (consistent_same w)|assumption].
    + destruct (activeResult w) as [r0|]; [|now apply (consistent_same w)].
      apply (consistent_update (id r0) (update_status EXPORTING) w); trivial.
      intros r _ _. apply extracted_status. now right.
    + destruct confirmLogin; [|assumption].
      destruct (is_empty (clientId (sheetConfig w)));
        [now apply (consistent_same w)|].
      destruct (negb loaded); [now apply (consistent_same w)|assumption].
  - unfold exportSettled in *.
    destruct (nth_error (exports w) k) as [t|]; [|assumption].
    destruct (exportToGoogleSheet _ _ _ _ _) as [log [m|u]].
    + unfold exportFailed.
      destruct (_ || _);
        (apply (consistent_update (task_id t) (update_status SUCCESS) w);
         trivial; intros r _ _; apply extracted_status; now left).
    + apply (consistent_update (task_id t) (update_status SUCCESS) w); trivial.
      intros r _ _; apply extracted_status; now left.
  - unfold handleGoogleLogin.
    destruct (is_empty (clientId (sheetConfig w)));
      [now apply (consistent_same w)|].
    destruct (negb loaded); [now apply (consistent_same w)|assumption].
  - unfold tokenCallback. destruct (negb (is_empty access_token));
      [now apply (consistent_same w)|assumption].
  - now apply (consistent_same w).
  - now apply (consistent_same w).
  - now apply (consistent_same w).
Qed.

Lemma consistent_initial : consistent initial.
Proof.
  constructor; simpl; try apply NoDup_nil; intros ? H; destruct H.
Qed.

Lemma reachable_consistent (w : World) :
  reachable w -> NoDup (createdIds w) -> consistent w.
Proof.
  induction 1 as [|w e Hr IH He]; intros Hnd.
  - apply consistent_initial.
  - apply handle_consistent; trivial.
    apply IH. eapply createdIds_NoDup_handle. eassumption.
Qed.

(** Uploads at different times get different ids. *)
Lemma String_of_N_inj (a b : N) : String_of_N a = String_of_N b -> a = b.
Proof.
  unfold String_of_N. intros H. apply DecimalN.Unsigned.to_uint_inj.
  pose proof (NilEmpty.usu (N.to_uint a)) as Ha.
  rewrite H, NilEmpty.usu in Ha. now injection Ha.
Qed.

Lemma result_id_inj (a b : N) :
  ("result-" ++ String_of_N a)%string = ("result-" ++ String_of_N b)%string ->
  a = b.
Proof. simpl. intros H. injection H. apply String_of_N_inj. Qed.

(** *** The claims about the session store *)

Lemma reachable_run (es : list Event) (w : World) :
  reachable w -> all_enabled es w = true -> reachable (run es w).
Proof.
  revert w. induction es as [|e es IH]; intros w Hr He; [assumption|].
  simpl in *. apply andb_prop in He. destruct He as [He1 He2].
  apply IH; [|assumption]. now constructor.
Qed.

Lemma active_count_unique (w : World) :
  NoDup (map id (results w)) -> active_count w <= 1.
Proof.
  unfold active_count. destruct (activeResultId w) as [a|]; simpl.
  - induction (results w) as [|r l IH]; simpl; [lia|].
    intros Hnd. inversion Hnd as [|? ? Hx Hl]; subst.
    destruct (String.eqb (id r) a) eqn:E; [|now apply IH].
    apply String.eqb_eq in E. simpl.
    replace (filter (fun r0 => String.eqb (id r0) a) l) with (@nil ProcessedResult);
      [simpl; lia|].
    symmetry. clear - Hx E. induction l as [|r' l IH]; [reflexivity|].
    simpl in *. destruct (String.eqb (id r') a) eqn:E'.
    + apply String.eqb_eq in E'. exfalso. apply Hx. left. congruence.
    + apply IH. tauto.
  - intros _. induction (results w) as [|r l IH]; simpl; [lia|exact IH].
Qed.

(** C8. In every state the store reaches from the empty one,
    [activeResultId] is [null] or the id of a Result of the collection, and
    the active Result is the single one [results.find] returns for it;
    when no two uploads were given the same id, no other Result carries
    that id either. *)
Theorem store_invariant (w : World) :
  reachable w ->
  active_present w /\ one_active w
  /\ (NoDup (createdIds w) -> active_count w <= 1).
Proof.
  intros Hr. pose proof (reachable_active_present w Hr) as Hp.
  split; [exact Hp|]. split; [now apply active_present_one_active|].
  intros Hnd. apply active_count_unique.
  apply (ids_unique w). now apply reachable_consistent.
Qed.

Lemma results_exportFailed (t : ExportTask) (message : string) (w : World) :
  results (exportFailed t message w)
  = map (fun r => if String.eqb (id r) (task_id t)
                  then with_status SUCCESS r else r) (results w).
Proof.
  unfold exportFailed. destruct (_ || _); reflexivity.
Qed.

Lemma export_started (confirmLogin loaded : bool) (w : World)
    (r : ProcessedResult) (token : string) :
  is_empty (spreadsheetId (sheetConfig w)) = false ->
  googleAccessToken w = Some token ->
  is_empty token = false ->
  activeResult w = Some r ->
  handleExportToSheets confirmLogin loaded w
  = setExports
      (exports w ++ [mkTask (id r) (name r) (spreadsheetId (sheetConfig w))
                            token (data r)])
      (updateResult (id r) (update_status EXPORTING) w).
Proof.
  intros Hs Ht He Ha. unfold handleExportToSheets. rewrite Hs, Ht, Ha.
  destruct token as [|c t]; [discriminate He|reflexivity].
Qed.

Lemma export_button_status (w : World) (r : ProcessedResult)
    (confirmLogin loaded : bool) :
  reachable w ->
  NoDup (createdIds w) ->
  enabled w (ExportClicked confirmLogin loaded) = true ->
  activeResult w = Some r ->
  status r = SUCCESS.
Proof.
  intros Hr Hnd He Ha.
  pose proof (reachable_consistent w Hr Hnd) as Hc.
  simpl in He. apply andb_prop in He. destruct He as [Hd Hx].
  unfold hasData in Hd. unfold active_status_is in Hx. rewrite Ha in Hd, Hx.
  apply activeResult_In in Ha. destruct Ha as [Hin _].
  destruct (results_extracted w Hc r Hin Hd) as [Hs|Hs]; [assumption|].
  rewrite Hs in Hx. discriminate.
Qed.

Lemma activeResultId_exportFailed (t : ExportTask) (message : string)
    (w : World) :
  activeResultId (exportFailed t message w) = activeResultId w.
Proof.
  unfold exportFailed. destruct (_ || _); reflexivity.
Qed.

(** C4. The export button is offered on a Result in [SUCCESS] only, so
    that is the status [s] before an export.  Clicking it starts the export
    of the active Result and shows it as [EXPORTING].  When
    [exportToGoogleSheet] then throws, settling the export gives that
    Result the status [s] back and changes nothing else: settled at once,
    the collection is what it was before the click; settled in any later
    state, only the status of that Result is written. *)
Theorem export_failure_restores_status
    (w : World) (r : ProcessedResult) (confirmLogin loaded : bool)
    (token : string) :
  reachable w ->
  NoDup (createdIds w) ->
  enabled w (ExportClicked confirmLogin loaded) = true ->
  activeResult w = Some r ->
  is_empty (spreadsheetId (sheetConfig w)) = false ->
  googleAccessToken w = Some token ->
  is_empty token = false ->
  let w1 := handle (ExportClicked confirmLogin loaded) w in
  let t := mkTask (id r) (name r) (spreadsheetId (sheetConfig w)) token
                  (data r) in
  status r = SUCCESS
  /\ exports w1 = exports w ++ [t]
  /\ results w1
     = map (fun r2 => if String.eqb (id r2) (id r)
                      then with_status EXPORTING r2 else r2)
           (results w)
  /\ (forall (fetch : Request -> Fetched) (message : string),
        snd (exportToGoogleSheet fetch (spreadsheetId (sheetConfig w)) token
                                 (data r) (name r))
        = inl message ->
        let w3 := handle (ExportSettled (List.length (exports w)) fetch) w1 in
        results w3 = results w /\ activeResult w3 = Some r)
  /\ (forall (w2 : World) (k : nat) (fetch : Request -> Fetched)
             (message : string),
        nth_error (exports w2) k = Some t ->
        snd (exportToGoogleSheet fetch (spreadsheetId (sheetConfig w)) token
                                 (data r) (name r))
        = inl message ->
        results (handle (ExportSettled k fetch) w2)
        = map (fun r2 => if String.eqb (id r2) (id r)
                         then with_status (status r) r2 else r2)
              (results w2)).
Proof.
  intros Hr Hnd He Ha Hsid Htok Hne w1 t.
  pose proof (export_button_status w r confirmLogin loaded Hr Hnd He Ha) as Hs.
  assert (E1 : w1 = setExports (exports w ++ [t])
                      (updateResult (id r) (update_status EXPORTING) w)).
  { unfold w1. simpl. now apply export_started. }
  assert (Hfail : forall (w2 : World) (k : nat) (fetch : Request -> Fetched)
                         (message : string),
             nth_error (exports w2) k = Some t ->
             snd (exportToGoogleSheet fetch (spreadsheetId (sheetConfig w))
                    token (data r) (name r)) = inl message ->
             results (exportSettled k fetch w2)
             = map (fun r2 => if String.eqb (id r2) (id r)
                              then with_status SUCCESS r2 else r2)
                   (results w2)
             /\ activeResultId (exportSettled k fetch w2) = activeResultId w2).
  { intros w2 k fetch message Hk Hx. unfold exportSettled. rewrite Hk.
    cbn [task_spreadsheetId task_accessToken task_data task_sheetName t].
    destruct (exportToGoogleSheet fetch (spreadsheetId (sheetConfig w)) token
                (data r) (name r)) as [log [m|u]]; [|discriminate Hx].
    rewrite results_exportFailed, activeResultId_exportFailed.
    split; reflexivity. }
  split; [exact Hs|]. split; [now rewrite E1|]. split; [now rewrite E1|].
  split.
  - intros fetch message Hx w3.
    assert (Hk : nth_error (exports w1) (List.length (exports w)) = Some t).
    { rewrite E1. cbn [exports setExports].
      rewrite nth_error_app2, Nat.sub_diag by apply Nat.le_refl. reflexivity. }
    destruct (Hfail w1 _ fetch message Hk Hx) as [R A].
    assert (Hres : results w3 = results w).
    { unfold w3. cbn [handle]. rewrite R, E1.
      cbn [results setExports]. rewrite results_updateResult, map_map.
      rewrite <- (map_id (results w)) at 2. apply map_ext_in.
      intros r2 Hin. pose proof (reachable_consistent w Hr Hnd) as Hc.
      destruct (String.eqb (id r2) (id r)) eqn:E.
      - apply String.eqb_eq in E.
        assert (r2 = r) as ->.
        { apply activeResult_In in Ha. destruct Ha as [Hin' _].
          eapply unique_by_id; eauto. apply Hc. }
        cbn. rewrite String.eqb_refl. destruct r. simpl in Hs. now subst.
      - now rewrite E. }
    split; [exact Hres|].
    unfold activeResult. rewrite Hres. unfold w3. cbn [handle].
    rewrite A, E1. exact Ha.
  - intros w2 k fetch message Hk Hx. cbn [handle].
    destruct (Hfail w2 k fetch message Hk Hx) as [R _].
    now rewrite R, Hs.
Qed.

Lemma data_updateResult (i : string) (u : Partial) (w : World) :
  p_data u = None ->
  map data (results (updateResult i u w)) = map data (results w).
Proof.
  intros Hu. rewrite results_updateResult, map_map. apply map_ext.
  intros r. destruct (String.eqb (id r) i); [|reflexivity].
  unfold merge. simpl. now rewrite Hu.
Qed.

Lemma data_exportSettled (k : nat) (fetch : Request -> Fetched) (w : World) :
  map data (results (exportSettled k fetch w)) = map data (results w).
Proof.
  unfold exportSettled. destruct (nth_error (exports w) k) as [t|]; [|reflexivity].
  destruct (exportToGoogleSheet _ _ _ _ _) as [log [m|u]].
  - rewrite results_exportFailed.
    change (results (send log (setExports (remove_nth k (exports w)) w)))
      with (results w).
    rewrite map_map. apply map_ext. intros r.
    now destruct (String.eqb (id r) (task_id t)).
  - unfold exportSucceeded. now rewrite data_updateResult.
Qed.

(** C6. When an export fails with a message that contains ["401"] or
    ["unauthorized"], the stored access token is set to [null] and the
    user is told to connect again; the data of the Results is what it was.
    On no path does an export change the data of a Result. *)
Theorem unauthorized_clears_token :
  (forall (k : nat) (fetch : Request -> Fetched) (w : World) (t : ExportTask)
          (log : list Request) (message : string),
      nth_error (exports w) k = Some t ->
      exportToGoogleSheet fetch (task_spreadsheetId t) (task_accessToken t)
                          (task_data t) (task_sheetName t)
      = (log, inl message) ->
      str_includes message "401" || str_includes message "unauthorized" = true ->
      let w' := handle (ExportSettled k fetch) w in
      googleAccessToken w' = None
      /\ alerts w'
         = alerts w ++ [("Export Failed: " ++ message)%string;
                        "Session expired. Please connect again."]
      /\ map data (results w') = map data (results w))
  /\ (forall (k : nat) (fetch : Request -> Fetched) (w : World),
        map data (results (handle (ExportSettled k fetch) w))
        = map data (results w)).
Proof.
  split; [|intros; apply data_exportSettled].
  intros k fetch w t log message Hk Hx Hm w'. subst w'.
  split; [|split; [|apply data_exportSettled]];
    simpl; unfold exportSettled, exportFailed; rewrite Hk, Hx, Hm.
  - reflexivity.
  - simpl. now rewrite <- app_assoc.
Qed.

(** C10. An image chosen through the file picker is named ["Result N"]
    with [N] one more than the number of Results at that moment; an image
    dropped on the uploader is named ["Result 1"] whatever that number is,
    so that with one Result open the second is named ["Result 1"] where
    the file picker names it ["Result 2"].  On the file picker alone, two
    creations, a close of the first and a third creation leave two
    Results of different ids both named ["Result 2"]; exporting each of
    them starts two exports whose sheet name is that shared name. *)
Theorem result_names_collide :
  (forall (now : N) (base64 : string) (w : World),
      exists r,
        results (handle (ImageSelected now base64) w) = results w ++ [r]
        /\ name r
           = ("Result "
              ++ String_of_N (N.of_nat (List.length (results w) + 1)))%string)
  /\ (forall (now : N) (base64 : string) (w : World),
         exists r,
           results (handle (ImageDropped now base64) w) = results w ++ [r]
           /\ name r = "Result 1")
  /\ (all_enabled dropSecond initial = true
      /\ map id (results (run dropSecond initial))
         = ["result-1000"; "result-2000"]
      /\ map name (results (run dropSecond initial))
         = ["Result 1"; "Result 1"]
      /\ map name (results (run pickSecond initial))
         = ["Result 1"; "Result 2"])
  /\ (forallb create_or_close closeThenUpload = true
      /\ all_enabled closeThenUpload initial = true
      /\ results (run closeThenUpload initial)
         = [mkResult "result-2000" "Result 2" "image-2" invoice SUCCESS None;
            mkResult "result-3000" "Result 2" "image-3" invoice SUCCESS None])
  /\ (results twoTabs = results (run closeThenUpload initial)
      /\ all_enabled bothExported initial = true
      /\ map task_id (exports exporting) = ["result-3000"; "result-2000"]
      /\ map task_sheetName (exports exporting) = ["Result 2"; "Result 2"]).
Proof.
  split; [intros now base64 w; eexists; split; reflexivity|].
  split; [intros now base64 w; eexists; split; reflexivity|].
  repeat split; vm_compute; reflexivity.
Qed.

End SessionStore.

(** ** The remote protocol *)

Section Protocol.
Context {JSN : JsNumber}.


Lemma raw_bind_cong {A B} (c c' : RawAsync A) (k k' : A -> RawAsync B) :
  c = c' -> (forall a, k a = k' a) -> raw_bind c k = raw_bind c' k'.
Proof.
  intros <- H. destruct c as [log [e|a]]; simpl; [reflexivity|].
  now rewrite H.
Qed.





Lemma raw_bind_nil {A B} (x : Thrown + A) (k : A -> RawAsync B) :
  raw_bind ([], x) k = match x with inl e => ([], inl e) | inr a => k a end.
Proof.
  destruct x as [e|a]; simpl; [reflexivity|]. now destruct (k a).
Qed.




Lemma raised_bind {A B} (c : Async A) (k : A -> Async B) :
  raised (bind c k) = raw_bind (raised c) (fun a => raised (k a)).
Proof.
  destruct c as [log [m|a]]; simpl; [reflexivity|].
  now destruct (k a) as [log' [m|b]].
Qed.

Lemma raw_bind_assoc {A B C} (c : RawAsync A) (f : A -> RawAsync B)
    (g : B -> RawAsync C) :
  raw_bind (raw_bind c f) g = raw_bind c (fun a => raw_bind (f a) g).
Proof.
  destruct c as [log [e|a]]; simpl; [reflexivity|].
  destruct (f a) as [log' [e|b]]; simpl; [reflexivity|].
  destruct (g b) as [log'' r]. now rewrite app_assoc.
Qed.

Lemma raw_await_received (typed : Request -> Fetched) (r : Request) :
  raw_await (fun r => received (typed r)) r
  = raw_bind (raised (await_fetch typed r))
             (fun p => raw_ret (fst p, body_received (snd p))).
Proof.
  unfold raw_await, await_fetch, received.
  now destruct (typed r) as [m|ok b].
Qed.

Lemma find_title_received (sheetName : string) (titles : list string) :
  find_title sheetName (map (fun title => Properties (Some title)) titles)
  = inr (option_map (fun title => Properties (Some title))
                    (find (String.eqb sheetName) titles)).
Proof.
  induction titles as [|t l IH]; simpl; [reflexivity|].
  now destruct (String.eqb sheetName t).
Qed.

(** On bodies of the documented shape, the protocol on bodies as received
    makes the calls and ends as [exportToGoogleSheet] on validated bodies
    does. *)
Lemma export_on_documented_bodies (typed : Request -> Fetched)
    (sid tok : string) (d : ExtractedData) (sheetName : string) :
  exportToGoogleSheet_raw (fun r => received (typed r)) sid tok d sheetName
  = raised (exportToGoogleSheet typed sid tok d sheetName).
Proof.
  unfold exportToGoogleSheet_raw, exportToGoogleSheet.
  destruct (is_empty sid || is_empty tok); [reflexivity|].
  rewrite raised_bind, raw_await_received, raw_bind_assoc.
  apply raw_bind_cong; [reflexivity|]. intros [ok b].
  unfold raw_ret at 1. rewrite raw_bind_nil. cbn [fst snd].
  destruct ok; cbn [negb].
  2:{ unfold message_or. cbn. now destruct (error_message b). }
  change (json (body_received b))
    with (([] : list Request), @inr Thrown _ (body_received b)).
  rewrite raw_bind_nil.
  change (find_sheet (body_received b) sheetName)
    with (([] : list Request),
          find_title sheetName
            (map (fun title => Properties (Some title)) (sheets b))).
  rewrite find_title_received, raw_bind_nil.
  rewrite raised_bind. apply raw_bind_cong.
  { destruct (find (String.eqb sheetName) (sheets b)); [reflexivity|].
    cbn [option_map]. rewrite raised_bind, raw_await_received, raw_bind_assoc.
    apply raw_bind_cong; reflexivity. }
  intros _. rewrite raised_bind, raw_await_received, raw_bind_assoc.
  apply raw_bind_cong; [reflexivity|]. intros [ok' b'].
  unfold raw_ret at 1. rewrite raw_bind_nil. cbn [fst snd].
  assert (H : raw_bind (if ok'
                        then raw_bind (json (body_received b'))
                               (fun getResult => values_0 getResult)
                        else raw_ret NoRow)
                       spread
              = raw_ret (if ok' then first_row b' else [])).
  { destruct ok'; [|reflexivity]. unfold first_row, body_received.
    destruct (body_values b') as [[|row rest]|]; reflexivity. }
  rewrite <- (raw_bind_assoc _ spread), H.
  unfold raw_ret at 1. rewrite raw_bind_nil.
  rewrite raised_bind. apply raw_bind_cong.
  { destruct (headersChanged _ _); [|reflexivity].
    rewrite raised_bind, raw_await_received, raw_bind_assoc.
    apply raw_bind_cong; reflexivity. }
  intros _. rewrite raised_bind, raw_await_received, raw_bind_assoc.
  apply raw_bind_cong; [reflexivity|]. intros [ok'' b''].
  unfold raw_ret at 1. rewrite raw_bind_nil. cbn [fst snd].
  destruct ok''; cbn [negb]; [reflexivity|].
  unfold message_or. cbn. now destruct (error_message b'').
Qed.

End Protocol.

(** ** The claims at concrete inputs *)

(** C5. [downloadCSV] does not pad: for a table with two headers and a row
    of one value it writes a row of one cell, where the spreadsheet sync
    writes two. *)
Lemma csv_short_row_not_padded :
  csvHeaders shortRow = ["Item"; "Qty"]
  /\ csvRows shortRow = [["Pen"]]
  /\ finalHeaders shortRow = ["Item"; "Qty"]
  /\ rowsToAppend shortRow = [["Pen"; EmptyString]].
Proof. repeat split; reflexivity. Qed.

Lemma reachable_twoTabs : reachable twoTabs.
Proof. apply reachable_run; [constructor|vm_compute; reflexivity]. Qed.

Lemma reachable_exporting : reachable exporting.
Proof. apply reachable_run; [constructor|vm_compute; reflexivity]. Qed.

Lemma createdIds_twoTabs : NoDup (createdIds twoTabs).
Proof. vm_compute. repeat constructor; simpl; intuition discriminate. Qed.

Lemma export_failure_restores_status_twoTabs :
  let r := mkResult "result-3000" "Result 2" "image-3" invoice SUCCESS None in
  let t := mkTask "result-3000" "Result 2" "sheet-id" "token" invoice in
  let w1 := handle (ExportClicked false true) twoTabs in
  let w3 := handle (ExportSettled 0 expired) w1 in
  activeResult twoTabs = Some r
  /\ exports w1 = [t]
  /\ map status (results w1) = [SUCCESS; EXPORTING]
  /\ snd (exportToGoogleSheet expired "sheet-id" "token" invoice "Result 2")
     = inl "401 unauthorized"
  /\ results w3 = results twoTabs
  /\ activeResult w3 = Some r.
Proof.
  intros r t w1 w3.
  assert (Ha : activeResult twoTabs = Some r) by reflexivity.
  assert (Hx : snd (exportToGoogleSheet expired "sheet-id" "token" invoice
                      "Result 2") = inl "401 unauthorized") by reflexivity.
  destruct (export_failure_restores_status twoTabs r false true "token"
              reachable_twoTabs createdIds_twoTabs eq_refl Ha eq_refl
              eq_refl eq_refl) as (_ & He & Hr & Hnow & _).
  destruct (Hnow expired "401 unauthorized" Hx) as [H3 H4].
  split; [exact Ha|]. split; [exact He|].
  split; [vm_compute; reflexivity|]. split; [exact Hx|].
  split; [exact H3|exact H4].
Defined.

Lemma unauthorized_clears_token_exporting :
  let w' := handle (ExportSettled 0 expired) exporting in
  googleAccessToken exporting = Some "token"
  /\ googleAccessToken w' = None
  /\ alerts w'
     = alerts exporting ++ ["Export Failed: 401 unauthorized";
                            "Session expired. Please connect again."]
  /\ map data (results w') = map data (results exporting).
Proof.
  intros w'. split; [reflexivity|].
  apply (proj1 unauthorized_clears_token 0 expired exporting
           (mkTask "result-3000" "Result 2" "sheet-id" "token" invoice)
           [GetSpreadsheet "sheet-id" "token"] "401 unauthorized");
    reflexivity.
Defined.

Lemma closeResult_spec_twoTabs :
  let w' := handleCloseTab "result-3000" twoTabs in
  activeResultId twoTabs = Some "result-3000"
  /\ map id (results w') = ["result-2000"]
  /\ activeResultId w' = Some "result-2000"
  /\ has_id "result-3000" w' = false.
Proof.
  intros w'.
  pose proof (closeResult_spec twoTabs "result-3000"
                (reachable_active_present twoTabs reachable_twoTabs) eq_refl)
    as (_ & Hgone & _).
  split; [reflexivity|]. split; [reflexivity|].
  split; [reflexivity|exact Hgone].
Defined.

Lemma store_invariant_twoTabs :
  active_present twoTabs /\ one_active twoTabs /\ active_count twoTabs <= 1.
Proof.
  destruct (store_invariant twoTabs reachable_twoTabs) as (A & B & C).
  split; [exact A|]. split; [exact B|]. apply C. exact createdIds_twoTabs.
Defined.



(** * Further properties of the code *)

(** ** The header union and the reprojection *)

Section Union.
Context {JSN : JsNumber}.

Lemma union_loop_snd (fh acc : list string) (b : bool) :
  snd (union_loop fh (acc, b))
  = b || existsb (fun h => negb (includes acc h)) fh.
Proof.
  revert acc b. induction fh as [|h rest IH]; intros acc b; simpl.
  - now rewrite orb_false_r.
  - destruct (includes acc h) eqn:E; simpl.
    + apply IH.
    + rewrite IH. simpl. now rewrite orb_true_r.
Qed.

Lemma union_loop_stable (fh acc : list string) (b : bool) :
  (forall h, In h fh -> In h acc) -> union_loop fh (acc, b) = (acc, b).
Proof.
  induction fh as [|h rest IH]; intros H; simpl; [reflexivity|].
  assert (E : includes acc h = true) by (apply includes_In, H; now left).
  rewrite E. simpl. apply IH. intros x Hx. apply H. now right.
Qed.

Lemma masterHeaders_In (existingHeaders fh : list string) (h : string) :
  In h (masterHeaders existingHeaders fh)
  <-> In h existingHeaders \/ In h fh.
Proof.
  unfold masterHeaders. rewrite union_loop_fst, in_app_iff.
  unfold unseen. rewrite first_occurrences_In, filter_In.
  rewrite negb_true_iff, <- not_true_iff_false, includes_In.
  destruct (in_dec string_dec h existingHeaders); tauto.
Qed.

(** X1. The header union is idempotent: computed again from its own
    result and the same local headers, it returns the same master headers
    and reports no change.  This is about the union alone, not about what a
    second sync reads back from the sheet. *)
Theorem union_idempotent (existingHeaders fh : list string) :
  masterHeaders (masterHeaders existingHeaders fh) fh
  = masterHeaders existingHeaders fh
  /\ headersChanged (masterHeaders existingHeaders fh) fh = false.
Proof.
  unfold masterHeaders at 1, headersChanged.
  rewrite union_loop_stable; [split; reflexivity|].
  intros h Hh. apply masterHeaders_In. now right.
Qed.

(** X2. The header row is marked as changed exactly when some local
    header is not among the existing ones; when it is not marked, the
    master headers are the existing headers. *)
Theorem headersChanged_iff (existingHeaders fh : list string) :
  (headersChanged existingHeaders fh = true
   <-> exists h, In h fh /\ ~ In h existingHeaders)
  /\ (headersChanged existingHeaders fh = false
      <-> masterHeaders existingHeaders fh = existingHeaders).
Proof.
  assert (A : headersChanged existingHeaders fh = true
              <-> exists h, In h fh /\ ~ In h existingHeaders).
  { unfold headersChanged. rewrite union_loop_snd. simpl.
    rewrite existsb_exists. split; intros (h & Hh & Hn); exists h;
      (split; [assumption|]).
    - apply negb_true_iff in Hn. rewrite <- includes_In. congruence.
    - apply negb_true_iff, not_true_iff_false. now rewrite includes_In. }
  split; [exact A|]. split.
  - intros H. unfold masterHeaders. rewrite union_loop_stable; [reflexivity|].
    intros h Hh. destruct (in_dec string_dec h existingHeaders) as [|Hn];
      [assumption|].
    exfalso. apply not_true_iff_false in H. apply H, A. now exists h.
  - intros H. apply not_true_iff_false. intros Ht. apply A in Ht.
    destruct Ht as (h & Hh & Hn). apply Hn. rewrite <- H.
    apply masterHeaders_In. now right.
Qed.

Lemma unseen_disjoint (existingHeaders fh : list string) (h : string) :
  In h existingHeaders -> ~ In h (unseen existingHeaders fh).
Proof.
  unfold unseen. rewrite first_occurrences_In, filter_In.
  rewrite negb_true_iff, <- not_true_iff_false, includes_In. tauto.
Qed.

(** X3. The master headers hold exactly the existing and the local
    headers; when the existing header row has no repeated entry, neither
    has the master row. *)
Theorem masterHeaders_members (existingHeaders fh : list string) :
  (forall h, In h (masterHeaders existingHeaders fh)
             <-> In h existingHeaders \/ In h fh)
  /\ (NoDup existingHeaders -> NoDup (masterHeaders existingHeaders fh)).
Proof.
  split; [apply masterHeaders_In|].
  intros H. unfold masterHeaders. rewrite union_loop_fst.
  apply NoDup_app; [assumption|apply first_occurrences_NoDup|].
  intros h Hh. now apply unseen_disjoint.
Qed.

Lemma indexOf_upper (l : list string) (h : string) :
  (indexOf l h < Z.of_nat (List.length l))%Z.
Proof.
  induction l as [|x l IH]; simpl List.length; [simpl; lia|].
  cbn [indexOf]. destruct (String.eqb x h); [lia|].
  destruct (indexOf l h =? -1)%Z; lia.
Qed.

Lemma indexOf_absent (l : list string) (h : string) :
  indexOf l h = (-1)%Z <-> ~ In h l.
Proof.
  induction l as [|x l IH]; simpl; [tauto|].
  destruct (String.eqb x h) eqn:E.
  - apply String.eqb_eq in E. split; [discriminate|]. tauto.
  - apply String.eqb_neq in E. pose proof (indexOf_lower l h).
    destruct (indexOf l h =? -1)%Z eqn:E1.
    + apply Z.eqb_eq in E1. tauto.
    + apply Z.eqb_neq in E1. split; [lia|]. tauto.
Qed.

Lemma indexOf_nth (l : list string) (i : nat) (h : string) :
  NoDup l -> nth_error l i = Some h -> indexOf l h = Z.of_nat i.
Proof.
  intros Hnd. revert i. induction Hnd as [|x l Hx Hl IH]; intros i Hi.
  - destruct i; discriminate.
  - destruct i as [|i]; simpl in Hi.
    + injection Hi as ->. apply indexOf_head.
    + cbn [indexOf]. destruct (String.eqb x h) eqn:E.
      * apply String.eqb_eq in E. subst. exfalso. apply Hx.
        eapply nth_error_In. eassumption.
      * rewrite (IH i Hi). destruct (Z.of_nat i =? -1)%Z eqn:E1; [|lia].
        apply Z.eqb_eq in E1. lia.
Qed.

Lemma reproject_cell (mh fh row : list string) (j : nat) (h : string) :
  nth_error mh j = Some h ->
  nth_error (reproject mh fh row) j
  = Some (if negb (indexOf fh h =? -1)%Z
          then nth_error row (Z.to_nat (indexOf fh h))
          else Some EmptyString).
Proof.
  intros H. unfold reproject. rewrite nth_error_map, H. reflexivity.
Qed.

(** X5. Whatever the master headers are, a column of the master row
    labelled with a local header holds the local row's value for that
    header, and a column whose label the local data does not have holds
    the empty string (local headers without repeated entries, a row at
    least as long as the local header line). *)
Theorem reproject_places (mh fh row : list string) :
  NoDup fh ->
  List.length fh <= List.length row ->
  forall (j : nat) (h : string),
    nth_error mh j = Some h ->
    (forall i v, nth_error fh i = Some h -> nth_error row i = Some v ->
                 nth_error (reproject mh fh row) j = Some (Some v))
    /\ (~ In h fh ->
        nth_error (reproject mh fh row) j = Some (Some EmptyString)).
Proof.
  intros Hnd Hlen j h Hj. rewrite (reproject_cell mh fh row j h Hj). split.
  - intros i v Hi Hv. rewrite (indexOf_nth fh i h Hnd Hi).
    destruct (Z.of_nat i =? -1)%Z eqn:E; [apply Z.eqb_eq in E; lia|].
    simpl. now rewrite Nat2Z.id, Hv.
  - intros Hn. apply indexOf_absent in Hn. now rewrite Hn.
Qed.

Lemma reproject_shape (mh fh row : list string) :
  List.length fh <= List.length row ->
  List.length (reproject mh fh row) = List.length mh
  /\ Forall (fun c => c <> None) (reproject mh fh row).
Proof.
  intros Hlen. unfold reproject. rewrite length_map. split; [reflexivity|].
  apply Forall_forall. intros c Hc. apply in_map_iff in Hc.
  destruct Hc as (h & <- & _).
  pose proof (indexOf_lower fh h). pose proof (indexOf_upper fh h).
  destruct (indexOf fh h =? -1)%Z eqn:E; simpl; [discriminate|].
  apply Z.eqb_neq in E. apply nth_error_Some. lia.
Qed.

Lemma rowsToAppend_length (d : ExtractedData) :
  List.length (rowsToAppend d)
  = match tables d with
    | [] => 1
    | primary :: _ => List.length (rows primary)
    end.
Proof.
  unfold rowsToAppend. destruct (tables d); [reflexivity|apply length_map].
Qed.

Lemma formattedRows_shape (mh : list string) (d : ExtractedData) :
  Forall (fun row => List.length row = List.length mh
                     /\ Forall (fun c => c <> None) row)
         (formattedRows mh (finalHeaders d) (rowsToAppend d))
  /\ List.length (formattedRows mh (finalHeaders d) (rowsToAppend d))
     = match tables d with
       | [] => 1
       | primary :: _ => List.length (rows primary)
       end.
Proof.
  unfold formattedRows. rewrite length_map, rowsToAppend_length.
  split; [|reflexivity].
  apply Forall_forall. intros frow Hin. apply in_map_iff in Hin.
  destruct Hin as (row & <- & Hrow). apply reproject_shape.
  pose proof (rowsToAppend_width d) as Hw. rewrite Forall_forall in Hw.
  now apply Hw.
Qed.

End Union.

Lemma masterHeaders_members_scenario :
  NoDup ["Date"; "Vendor"] /\ NoDup (masterHeaders ["Date"; "Vendor"] ["Date"; "Item"]).
Proof.
  assert (H : NoDup ["Date"; "Vendor"]).
  { repeat constructor; simpl; intuition discriminate. }
  split; [exact H|].
  exact (proj2 (masterHeaders_members ["Date"; "Vendor"] ["Date"; "Item"]) H).
Defined.

Lemma reproject_places_scenario :
  nth_error (reproject ["Date"; "Vendor"; "Item"] ["Date"; "Item"]
                       ["2024-01-01"; "Pen"]) 2
  = Some (Some "Pen")
  /\ nth_error (reproject ["Date"; "Vendor"; "Item"] ["Date"; "Item"]
                          ["2024-01-01"; "Pen"]) 1
     = Some (Some EmptyString).
Proof.
  assert (Hnd : NoDup ["Date"; "Item"]).
  { repeat constructor; simpl; intuition discriminate. }
  assert (Hlen : List.length ["Date"; "Item"] <= List.length ["2024-01-01"; "Pen"])
    by (simpl; lia).
  split.
  - apply (proj1 (reproject_places ["Date"; "Vendor"; "Item"] ["Date"; "Item"]
                    ["2024-01-01"; "Pen"] Hnd Hlen 2 "Item" eq_refl)
             1 "Pen" eq_refl eq_refl).
  - apply (proj2 (reproject_places ["Date"; "Vendor"; "Item"] ["Date"; "Item"]
                    ["2024-01-01"; "Pen"] Hnd Hlen 1 "Vendor" eq_refl)).
    simpl. intuition discriminate.
Defined.

(** ** Sheet names and ranges *)

Section SheetNames.

Lemma list_ascii_append (a b : string) :
  list_ascii_of_string (a ++ b)%string
  = list_ascii_of_string a ++ list_ascii_of_string b.
Proof. induction a as [|c a IH]; simpl; [reflexivity|now rewrite IH]. Qed.

Lemma rev_chars_append (a s : string) :
  rev (list_ascii_of_string (a ++ s)%string)
  = rev (list_ascii_of_string s) ++ rev (list_ascii_of_string a).
Proof. now rewrite list_ascii_append, rev_app_distr. Qed.

Lemma list_ascii_inj (a b : string) :
  list_ascii_of_string a = list_ascii_of_string b -> a = b.
Proof.
  intros H. rewrite <- (string_of_list_ascii_of_string a),
                    <- (string_of_list_ascii_of_string b).
  now rewrite H.
Qed.

Lemma append_inj_r (a b s : string) :
  (a ++ s)%string = (b ++ s)%string -> a = b.
Proof.
  intros H. apply (f_equal (fun x => rev (list_ascii_of_string x))) in H.
  rewrite !rev_chars_append in H. apply app_inv_head in H.
  apply list_ascii_inj. rewrite <- (rev_involutive (list_ascii_of_string a)),
                                <- (rev_involutive (list_ascii_of_string b)).
  now rewrite H.
Qed.

Lemma double_quotes_inj (a b : string) :
  double_quotes a = double_quotes b -> a = b.
Proof.
  revert b. induction a as [|c a IH]; intros [|c' b]; simpl.
  - reflexivity.
  - destruct (Ascii.eqb c' "'"); discriminate.
  - destruct (Ascii.eqb c "'"); discriminate.
  - destruct (Ascii.eqb c "'") eqn:E, (Ascii.eqb c' "'") eqn:E'; intros H.
    + apply Ascii.eqb_eq in E, E'. subst. injection H as H. f_equal. now apply IH.
    + injection H as H1 H2. subst c'. discriminate E'.
    + injection H as H1 H2. subst c. discriminate E.
    + injection H as H1 H2. subst. f_equal. now apply IH.
Qed.

Lemma a_word_has_no_quote (a rest : string) :
  a = String "'" rest -> all_word_chars a = false.
Proof. intros ->. reflexivity. Qed.

Lemma formatSheetName_inj (a b : string) :
  formatSheetName a = formatSheetName b -> a = b.
Proof.
  unfold formatSheetName.
  destruct (negb (is_empty a) && all_word_chars a) eqn:Ea,
           (negb (is_empty b) && all_word_chars b) eqn:Eb; intros H.
  - exact H.
  - apply andb_prop in Ea. destruct Ea as [_ Ea].
    rewrite (a_word_has_no_quote a _ H) in Ea. discriminate.
  - apply andb_prop in Eb. destruct Eb as [_ Eb].
    rewrite (a_word_has_no_quote b _ (eq_sym H)) in Eb. discriminate.
  - injection H as H.
    apply double_quotes_inj. now apply (append_inj_r _ _ "'").
Qed.

(** X6. Two different sheet names never get the same A1 name. *)
Theorem formatSheetName_distinct (a b : string) :
  a <> b -> formatSheetName a <> formatSheetName b.
Proof. intros H E. apply H. now apply formatSheetName_inj. Qed.

Lemma ranges_distinct (x y s1 s2 : string) :
  In s1 range_suffixes -> In s2 range_suffixes ->
  (x ++ s1)%string = (y ++ s2)%string -> x = y.
Proof.
  unfold range_suffixes. intros H1 H2 E.
  assert (E' := f_equal (fun x => rev (list_ascii_of_string x)) E).
  cbv beta in E'. rewrite !rev_chars_append in E'.
  simpl in H1, H2.
  destruct H1 as [<-|[<-|[<-|[]]]], H2 as [<-|[<-|[<-|[]]]];
    try (now apply (append_inj_r _ _ _ E));
    simpl in E'; discriminate E'.
Qed.

End SheetNames.

Lemma formatSheetName_distinct_results :
  formatSheetName "Result 1" <> formatSheetName "Result 2".
Proof. apply formatSheetName_distinct. discriminate. Defined.

(** ** The calls of one export *)

Section Calls.
Context {JSN : JsNumber}.

Lemma calls_only_ret {A} (P : Request -> Prop) (a : A) : calls_only P (ret a).
Proof. intros r []. Qed.

Lemma calls_only_throw {A} (P : Request -> Prop) (m : string) :
  calls_only P (@throw A m).
Proof. intros r []. Qed.

Lemma calls_only_await (P : Request -> Prop) (fetch : Request -> Fetched)
    (r : Request) :
  P r -> calls_only P (await_fetch fetch r).
Proof.
  intros H r'. unfold await_fetch. destruct (fetch r); simpl;
    intros [<-|[]]; exact H.
Qed.

Lemma calls_only_bind {A B} (P : Request -> Prop) (c : Async A)
    (k : A -> Async B) :
  calls_only P c ->
  (forall a, snd c = inr a -> calls_only P (k a)) ->
  calls_only P (bind c k).
Proof.
  intros Hc Hk r. destruct c as [log [m|a]]; simpl.
  - apply Hc.
  - specialize (Hk a eq_refl). destruct (k a) as [log' x]. simpl.
    intros H. apply in_app_or in H. destruct H as [H|H]; [now apply Hc|].
    now apply Hk.
Qed.

Lemma await_returns (fetch : Request -> Fetched) (r : Request)
    (ok : bool) (b : Body) :
  snd (await_fetch fetch r) = inr (ok, b) -> fetch r = Response ok b.
Proof.
  unfold await_fetch. destruct (fetch r); simpl; [discriminate|].
  intros H. now injection H as -> ->.
Qed.

Lemma export_calls (fetch : Request -> Fetched) (sid tok : string)
    (d : ExtractedData) (sheetName : string) :
  calls_only (protocol_call fetch sid tok d sheetName)
             (exportToGoogleSheet fetch sid tok d sheetName).
Proof.
  unfold exportToGoogleSheet.
  destruct (is_empty sid || is_empty tok); [apply calls_only_throw|].
  apply calls_only_bind; [apply calls_only_await; now left|].
  intros [ok b] Hm. apply await_returns in Hm. simpl fst. simpl snd.
  destruct ok; simpl negb; cbv iota; [|apply calls_only_throw].
  apply calls_only_bind.
  { destruct (find (String.eqb sheetName) (sheets b)) eqn:F;
      [apply calls_only_ret|].
    apply calls_only_bind; [|intros; apply calls_only_ret].
    apply calls_only_await. right; left. split; [reflexivity|]. now exists b. }
  intros _ _. apply calls_only_bind;
    [apply calls_only_await; right; right; now left|].
  intros [ok' b'] Hg. apply await_returns in Hg. simpl fst. simpl snd.
  assert (E : (if ok' then first_row b' else [])
              = existingHeadersOf fetch sid tok sheetName).
  { unfold existingHeadersOf. rewrite Hg. now destruct ok'. }
  rewrite E. apply calls_only_bind.
  { destruct (headersChanged _ _) eqn:Hc; [|apply calls_only_ret].
    apply calls_only_bind; [|intros; apply calls_only_ret].
    apply calls_only_await. right; right; right; left. now split. }
  intros _ _. apply calls_only_bind.
  - apply calls_only_await. now repeat right.
  - intros resp _. destruct (negb (fst resp));
      [apply calls_only_throw|apply calls_only_ret].
Qed.

(** X4. Every append call of an export carries one row per row of the
    first table (none when that table is empty, one when there is no
    table); each row has one cell per master header and no cell is
    undefined. *)
Theorem append_rows_shape (fetch : Request -> Fetched) (sid tok : string)
    (d : ExtractedData) (sheetName : string) :
  forall s t range vals,
    In (AppendValues s t range vals)
       (fst (exportToGoogleSheet fetch sid tok d sheetName)) ->
    let mh := masterHeaders (existingHeadersOf fetch sid tok sheetName)
                            (finalHeaders d) in
    Forall (fun row => List.length row = List.length mh
                       /\ Forall (fun c => c <> None) row) vals
    /\ List.length vals
       = match tables d with
         | [] => 1
         | primary :: _ => List.length (rows primary)
         end.
Proof.
  intros s t range vals Hin mh.
  apply export_calls in Hin.
  destruct Hin as [H|[[H _]|[H|[[H _]|H]]]]; try discriminate H.
  injection H as _ _ _ ->. apply formattedRows_shape.
Qed.

(** X7. Exports to two different sheet names never read or write the
    same range. *)
Theorem exports_address_own_sheet
    (fetch1 fetch2 : Request -> Fetched) (sid1 tok1 sid2 tok2 : string)
    (d1 d2 : ExtractedData) (name1 name2 : string) :
  name1 <> name2 ->
  forall r1 r2 range1 range2,
    In r1 (fst (exportToGoogleSheet fetch1 sid1 tok1 d1 name1)) ->
    In r2 (fst (exportToGoogleSheet fetch2 sid2 tok2 d2 name2)) ->
    range_of r1 = Some range1 -> range_of r2 = Some range2 ->
    range1 <> range2.
Proof.
  intros Hne r1 r2 range1 range2 H1 H2 E1 E2 Heq.
  assert (R : forall fetch sid tok d name r range,
             In r (fst (exportToGoogleSheet fetch sid tok d name)) ->
             range_of r = Some range ->
             exists sfx, In sfx range_suffixes
                         /\ range = (formatSheetName name ++ sfx)%string).
  { clear. intros fetch sid tok d name r range Hin Hr.
    apply export_calls in Hin. unfold range_suffixes.
    destruct Hin as [H|[[H _]|[H|[[H _]|H]]]]; subst r; simpl in Hr;
      try discriminate Hr; injection Hr as <-; eexists; split;
      try reflexivity; simpl; tauto. }
  destruct (R _ _ _ _ _ _ _ H1 E1) as (s1 & Hs1 & ->).
  destruct (R _ _ _ _ _ _ _ H2 E2) as (s2 & Hs2 & ->).
  apply Hne, formatSheetName_inj.
  now apply (ranges_distinct _ _ s1 s2).
Qed.

(** X8. The header row is only ever written to extend it: the row an
    export writes is the existing row followed by at least one new
    header. *)
Theorem header_write_extends (fetch : Request -> Fetched) (sid tok : string)
    (d : ExtractedData) (sheetName : string) :
  forall s t range vals,
    In (PutValues s t range vals)
       (fst (exportToGoogleSheet fetch sid tok d sheetName)) ->
    exists added,
      added <> []
      /\ vals = [existingHeadersOf fetch sid tok sheetName ++ added]
      /\ range = (formatSheetName sheetName ++ "!A1")%string.
Proof.
  intros s t range vals Hin. apply export_calls in Hin.
  destruct Hin as [H|[[H _]|[H|[[H Hc]|H]]]]; try discriminate H.
  injection H as _ _ -> ->.
  exists (unseen (existingHeadersOf fetch sid tok sheetName) (finalHeaders d)).
  split; [|split; [|reflexivity]].
  - intros Hnil. unfold headersChanged in Hc. rewrite union_loop_snd in Hc.
    simpl in Hc. apply existsb_exists in Hc. destruct Hc as (h & Hh & Hn).
    assert (Hin : In h (unseen (existingHeadersOf fetch sid tok sheetName)
                               (finalHeaders d))).
    { unfold unseen. rewrite first_occurrences_In, filter_In. now split. }
    now rewrite Hnil in Hin.
  - unfold masterHeaders. now rewrite union_loop_fst.
Qed.

(** X26. When the header row an export reads back is already the union
    of some row with the export's own headers, the export does not write
    the header row. *)
Theorem no_header_write_after_union (fetch : Request -> Fetched)
    (sid tok : string) (d : ExtractedData) (sheetName : string)
    (earlier : list string) :
  existingHeadersOf fetch sid tok sheetName
  = masterHeaders earlier (finalHeaders d) ->
  forall s t range vals,
    ~ In (PutValues s t range vals)
         (fst (exportToGoogleSheet fetch sid tok d sheetName)).
Proof.
  intros He s t range vals Hin. apply export_calls in Hin.
  destruct Hin as [H|[[H _]|[H|[[_ Hc]|H]]]]; try discriminate H.
  rewrite He in Hc. unfold headersChanged in Hc.
  rewrite union_loop_stable in Hc; [discriminate Hc|].
  intros h Hh. apply masterHeaders_In. now right.
Qed.

(** X10. Every call of an export is made with the spreadsheet id and the
    token the export was given, and a sheet is only created under the
    export's sheet name and when the metadata lists no sheet of that
    name. *)
Theorem export_calls_scope (fetch : Request -> Fetched) (sid tok : string)
    (d : ExtractedData) (sheetName : string) :
  forall r,
    In r (fst (exportToGoogleSheet fetch sid tok d sheetName)) ->
    credentials r = (sid, tok)
    /\ forall s t title,
         r = AddSheet s t title ->
         title = sheetName
         /\ exists b, fetch (GetSpreadsheet sid tok) = Response true b
                      /\ ~ In sheetName (sheets b).
Proof.
  intros r Hin. apply export_calls in Hin.
  destruct Hin as [H|[[H Hb]|[H|[[H _]|H]]]]; subst r;
    (split; [reflexivity|]); intros s t title E; try discriminate E.
  injection E as _ _ <-. split; [reflexivity|].
  destruct Hb as (b & Hb & Hf). exists b. split; [assumption|].
  intros Hin. apply (find_none _ _ Hf) in Hin.
  now rewrite String.eqb_refl in Hin.
Qed.

Lemma returns_after_bind {A B} (P : Request -> Prop) (c : Async A)
    (k : A -> Async B) :
  (forall a, returns_after P (k a)) -> returns_after P (bind c k).
Proof.
  intros Hk b. destruct c as [log [m|a]]; simpl; [discriminate|].
  specialize (Hk a b). destruct (k a) as [log' x]. simpl in *.
  intros H. destruct (Hk H) as (r & Hr & HP). exists r.
  split; [|assumption]. apply in_or_app. now right.
Qed.

(** X9. An export returns normally only after an append call that the
    service answered with success; and when the metadata call is not
    answered with success, the metadata call is the only call made. *)
Theorem success_means_appended (fetch : Request -> Fetched) (sid tok : string)
    (d : ExtractedData) (sheetName : string) :
  (snd (exportToGoogleSheet fetch sid tok d sheetName) = inr tt ->
   exists range vals b,
     In (AppendValues sid tok range vals)
        (fst (exportToGoogleSheet fetch sid tok d sheetName))
     /\ fetch (AppendValues sid tok range vals) = Response true b)
  /\ (is_empty sid || is_empty tok = false ->
      succeeded (fetch (GetSpreadsheet sid tok)) = false ->
      fst (exportToGoogleSheet fetch sid tok d sheetName)
      = [GetSpreadsheet sid tok]).
Proof.
  split.
  - intros H.
    assert (R : returns_after
                  (fun r => exists range vals b,
                       r = AppendValues sid tok range vals
                       /\ fetch r = Response true b)
                  (exportToGoogleSheet fetch sid tok d sheetName)).
    { unfold exportToGoogleSheet.
      destruct (is_empty sid || is_empty tok); [intros a Ha; discriminate Ha|].
      apply returns_after_bind. intros metaResponse.
      destruct (negb (fst metaResponse)); [intros a Ha; discriminate Ha|].
      apply returns_after_bind. intros _.
      apply returns_after_bind. intros getResponse.
      apply returns_after_bind. intros _.
      intros a. unfold bind, await_fetch.
      match goal with |- context [fetch ?r] =>
        destruct (fetch r) as [m|ok b] eqn:E end; simpl; [discriminate|].
      destruct ok; simpl; [|discriminate]. intros _.
      eexists. split; [now left|]. now eauto. }
    destruct (R tt H) as (r & Hr & range & vals & b & -> & Hb).
    now exists range, vals, b.
  - intros Hg Hm. unfold exportToGoogleSheet. rewrite Hg.
    unfold bind, await_fetch.
    destruct (fetch (GetSpreadsheet sid tok)) as [m|ok b]; [reflexivity|].
    simpl in Hm. subst ok. reflexivity.
Qed.

End Calls.

(** ** Exports in flight *)

Section InFlight.
Context {JSN : JsNumber}.

Lemma remove_nth_map {A B} (f : A -> B) (k : nat) (l : list A) :
  map f (remove_nth k l) = remove_nth k (map f l).
Proof.
  revert k. induction l as [|x l IH]; intros [|k]; simpl; try reflexivity.
  now rewrite IH.
Qed.

Lemma remove_nth_keeps {A} (k : nat) (l : list A) (x y : A) :
  nth_error l k = Some x -> In y l -> y <> x -> In y (remove_nth k l).
Proof.
  revert k. induction l as [|a l IH]; intros [|k]; simpl; try tauto.
  - intros E [H|H] Hn; [congruence|assumption].
  - intros E [H|H] Hn; [now left|]. right. now apply IH.
Qed.

Lemma status_merge (r : ProcessedResult) (u : Partial) :
  status (merge r u) = get (p_status u) (status r).
Proof. reflexivity. Qed.

Lemma tracked_same (w w' : World) :
  results w' = results w ->
  exports w' = exports w ->
  extractions w' = extractions w ->
  createdIds w' = createdIds w ->
  tracked w -> tracked w'.
Proof.
  intros Hr Hx He Hc [A B C D].
  constructor; rewrite ?Hr, ?Hx, ?He, ?Hc; assumption.
Qed.

Lemma tracked_map (f : ProcessedResult -> ProcessedResult) (w w' : World) :
  tracked w ->
  results w' = map f (results w) ->
  (forall r, id (f r) = id r) ->
  exports w' = exports w ->
  createdIds w' = createdIds w ->
  (forall x, In x (extractions w') -> In x (extractions w)) ->
  (forall r, In r (results w) ->
             (status (f r) = EXPORTING <-> status r = EXPORTING)) ->
  tracked w'.
Proof.
  intros [A B C D] Hr Hid Hx Hc He Hs.
  constructor; rewrite ?Hr, ?Hx, ?Hc; try assumption.
  - intros t Ht Hin. apply (C t Ht). now apply He.
  - intros r' Hin. apply in_map_iff in Hin. destruct Hin as (r & <- & Hin).
    rewrite Hid, (Hs r Hin). now apply D.
Qed.

(** An update that neither puts a Result into [EXPORTING] nor takes one
    out of it. *)
Lemma tracked_update (i : string) (u : Partial) (w w' : World) :
  tracked w ->
  results w' = results (updateResult i u w) ->
  exports w' = exports w ->
  createdIds w' = createdIds w ->
  (forall x, In x (extractions w') -> In x (extractions w)) ->
  p_id u = None ->
  p_status u <> Some EXPORTING ->
  (forall r, In r (results w) -> id r = i -> p_status u <> None ->
             status r <> EXPORTING) ->
  tracked w'.
Proof.
  intros Ht Hr Hx Hc He Hu Hs Hn.
  apply (tracked_map
           (fun r => if String.eqb (id r) i then merge r u else r) w w' Ht);
    try assumption.
  - intros r. destruct (String.eqb (id r) i); [|reflexivity].
    unfold merge. simpl. now rewrite Hu.
  - intros r Hin. destruct (String.eqb (id r) i) eqn:E; [|tauto].
    apply String.eqb_eq in E. rewrite status_merge.
    destruct (p_status u) as [s|] eqn:Es; simpl; [|tauto].
    split; [congruence|]. intros H. exfalso.
    apply (Hn r Hin E); [discriminate|exact H].
Qed.

Lemma tracked_image (now : N) (base64 : string) (w : World) :
  tracked w ->
  NoDup (createdIds (handleImageSelect now base64 w)) ->
  tracked (handleImageSelect now base64 w).
Proof.
  intros [A B C D] Hnd.
  unfold handleImageSelect, setExtractions, record_id, setActiveResultId,
    setResults in *.
  cbn [results extractions createdIds exports] in *.
  set (newId := ("result-" ++ String_of_N now)%string) in *.
  apply NoDup_remove_2 in Hnd. rewrite app_nil_r in Hnd.
  constructor; cbn [results extractions createdIds exports].
  - assumption.
  - intros t Ht. apply in_or_app. left. now apply B.
  - intros t Ht Hin. apply in_app_or in Hin. destruct Hin as [Hin|[Hin|[]]].
    + now apply (C t Ht).
    + apply Hnd. rewrite Hin. now apply B.
  - intros r Hr. apply in_app_or in Hr. destruct Hr as [Hr|[<-|[]]].
    + now apply D.
    + simpl. split; [discriminate|]. intros Hin. exfalso. apply Hnd.
      apply in_map_iff in Hin. destruct Hin as (t & Et & Ht).
      rewrite <- Et. now apply B.
Qed.

Lemma tracked_drop (now : N) (base64 : string) (w : World) :
  tracked w ->
  NoDup (createdIds (handleImageDrop now base64 w)) ->
  tracked (handleImageDrop now base64 w).
Proof.
  intros [A B C D] Hnd.
  unfold handleImageDrop, setExtractions, record_id, setActiveResultId,
    setResults in *.
  cbn [results extractions createdIds exports] in *.
  set (newId := ("result-" ++ String_of_N now)%string) in *.
  apply NoDup_remove_2 in Hnd. rewrite app_nil_r in Hnd.
  constructor; cbn [results extractions createdIds exports].
  - assumption.
  - intros t Ht. apply in_or_app. left. now apply B.
  - intros t Ht Hin. apply in_app_or in Hin. destruct Hin as [Hin|[Hin|[]]].
    + now apply (C t Ht).
    + apply Hnd. rewrite Hin. now apply B.
  - intros r Hr. apply in_app_or in Hr. destruct Hr as [Hr|[<-|[]]].
    + now apply D.
    + simpl. split; [discriminate|]. intros Hin. exfalso. apply Hnd.
      apply in_map_iff in Hin. destruct Hin as (t & Et & Ht).
      rewrite <- Et. now apply B.
Qed.

Lemma tracked_filter (f : ProcessedResult -> bool) (w w' : World) :
  tracked w ->
  results w' = filter f (results w) ->
  exports w' = exports w ->
  extractions w' = extractions w ->
  createdIds w' = createdIds w ->
  tracked w'.
Proof.
  intros [A B C D] Hr Hx He Hc.
  constructor; rewrite ?Hr, ?Hx, ?He, ?Hc; try assumption.
  intros r Hin. apply filter_In in Hin. now apply D.
Qed.

Lemma tracked_started (r0 : ProcessedResult) (t : ExportTask) (w w' : World) :
  consistent w -> tracked w ->
  In r0 (results w) ->
  status r0 <> EXPORTING ->
  has_data (data r0) = true ->
  task_id t = id r0 ->
  results w' = results (updateResult (id r0) (update_status EXPORTING) w) ->
  exports w' = exports w ++ [t] ->
  extractions w' = extractions w ->
  createdIds w' = createdIds w ->
  tracked w'.
Proof.
  intros Hc [A B C D] Hin Hs Hd Ht Hr Hx He Hcr.
  assert (Hfree : ~ In (id r0) (map task_id (exports w))).
  { intros H. apply Hs. now apply D. }
  constructor; rewrite ?Hr, ?Hx, ?He, ?Hcr.
  - rewrite map_app. simpl. apply NoDup_app; [assumption|now repeat constructor|].
    intros x Hx' [<-|[]]. apply Hfree. now rewrite <- Ht.
  - intros t' Ht'. apply in_app_or in Ht'. destruct Ht' as [Ht'|[<-|[]]].
    + now apply B.
    + rewrite Ht. now apply (ids_created w Hc).
  - intros t' Ht'. apply in_app_or in Ht'. destruct Ht' as [Ht'|[<-|[]]].
    + now apply C.
    + rewrite Ht. intros Hex.
      pose proof (analyzing_empty w Hc r0 Hin Hex). congruence.
  - rewrite results_updateResult. intros r' Hr'. apply in_map_iff in Hr'.
    destruct Hr' as (r & <- & Hr'). rewrite map_app, in_app_iff. simpl.
    destruct (String.eqb (id r) (id r0)) eqn:E.
    + apply String.eqb_eq in E. simpl. rewrite Ht, E. tauto.
    + apply String.eqb_neq in E. rewrite (D r Hr'), Ht.
      split; [tauto|]. intros [H|[H|[]]]; [assumption|congruence].
Qed.

Lemma tracked_settled (k : nat) (t : ExportTask) (w w' : World) :
  tracked w ->
  nth_error (exports w) k = Some t ->
  results w' = results (updateResult (task_id t) (update_status SUCCESS) w) ->
  exports w' = remove_nth k (exports w) ->
  extractions w' = extractions w ->
  createdIds w' = createdIds w ->
  tracked w'.
Proof.
  intros [A B C D] Hk Hr Hx He Hc.
  assert (Hk' : nth_error (map task_id (exports w)) k = Some (task_id t)).
  { now rewrite nth_error_map, Hk. }
  constructor; rewrite ?Hr, ?Hx, ?He, ?Hc.
  - rewrite remove_nth_map. now apply remove_nth_NoDup.
  - intros t' Ht'. apply B. eapply remove_nth_In. eassumption.
  - intros t' Ht'. apply C. eapply remove_nth_In. eassumption.
  - rewrite results_updateResult, remove_nth_map. intros r' Hr'.
    apply in_map_iff in Hr'. destruct Hr' as (r & <- & Hr').
    destruct (String.eqb (id r) (task_id t)) eqn:E.
    + apply String.eqb_eq in E. simpl. rewrite E. split; [discriminate|].
      intros H. exfalso. now apply (remove_nth_gone k _ _ A Hk').
    + apply String.eqb_neq in E. rewrite (D r Hr'). split.
      * intros H. now apply (remove_nth_keeps k _ (task_id t)).
      * apply remove_nth_In.
Qed.

Lemma handle_tracked (e : Event) (w : World) :
  enabled w e = true ->
  consistent w ->
  tracked w ->
  NoDup (createdIds (handle e w)) ->
  tracked (handle e w).
Proof.
  intros He Hc Ht Hnd. destruct e; simpl in *.
  - now apply tracked_image.
  - now apply tracked_drop.
  - unfold extractionResolved.
    destruct (nth_error (extractions w) k) as [x|] eqn:Hk; [|assumption].
    apply (tracked_update x (update_data_status extractedData SUCCESS) w);
      try reflexivity; try discriminate; trivial.
    + simpl. intros y. apply remove_nth_In.
    + intros r Hr E _ Hs. apply (exporting_tracked w Ht r Hr) in Hs.
      apply in_map_iff in Hs. destruct Hs as (t & Et & Hin).
      apply (tasks_extracted w Ht t Hin). rewrite Et, E.
      eapply nth_error_In. eassumption.
  - unfold extractionRejected.
    destruct (nth_error (extractions w) k) as [x|] eqn:Hk; [|assumption].
    apply (tracked_update x
             (update_status_error ERROR
                (or_else message "Failed to extract data.")) w);
      try reflexivity; try discriminate; trivial.
    + simpl. intros y. apply remove_nth_In.
    + intros r Hr E _ Hs. apply (exporting_tracked w Ht r Hr) in Hs.
      apply in_map_iff in Hs. destruct Hs as (t & Et & Hin).
      apply (tasks_extracted w Ht t Hin). rewrite Et, E.
      eapply nth_error_In. eassumption.
  - now apply (tracked_same w).
  - apply (tracked_filter (fun r => negb (String.eqb (id r) i)) w _ Ht).
    + apply results_handleCloseTab.
    + unfold handleCloseTab. by_cases.
    + unfold handleCloseTab. by_cases.
    + unfold handleCloseTab. by_cases.
  - apply (tracked_update i (update_name newName) w);
      try reflexivity; try discriminate; trivial.
    intros r _ _ H. now elim H.
  - unfold dismissError, active_status_is in *.
    destruct (activeResult w) as [r0|] eqn:Ha; [|assumption].
    apply (tracked_update (id r0) (update_status IDLE) w);
      try reflexivity; try discriminate; trivial.
    intros r Hr E _ Hs. apply activeResult_In in Ha. destruct Ha as [Hin _].
    assert (r = r0) as -> by (eapply unique_by_id; eauto; apply Hc).
    rewrite Hs in He. discriminate.
  - unfold editData. destruct (activeResultId w) as [[|c t]|]; try assumption.
    apply (tracked_update (String c t) (update_data newData) w);
      try reflexivity; try discriminate; trivial.
    intros r _ _ H. now elim H.
  - apply andb_prop in He. destruct He as [Hd Hx].
    unfold handleExportToSheets, handleGoogleLogin in *.
    destruct (is_empty (spreadsheetId (sheetConfig w)));
      [now apply (tracked_same w)|].
    destruct (googleAccessToken w) as [[|c t]|].
    + destruct confirmLogin; [|assumption].
      destruct (is_empty (clientId (sheetConfig w)));
        [now apply (tracked_same w)|].
      destruct (negb loaded); [now apply (tracked_same w)|assumption].
    + unfold hasData, active_status_is in Hd, Hx.
      destruct (activeResult w) as [r0|] eqn:Ha; [|now apply (tracked_same w)].
      apply activeResult_In in Ha. destruct Ha as [Hin _].
      eapply (tracked_started r0 _ w); eauto; try reflexivity.
      * intros Hs. rewrite Hs in Hx. discriminate.
      * reflexivity.
    + destruct confirmLogin; [|assumption].
      destruct (is_empty (clientId (sheetConfig w)));
        [now apply (tracked_same w)|].
      destruct (negb loaded); [now apply (tracked_same w)|assumption].
  - unfold exportSettled in *.
    destruct (nth_error (exports w) k) as [t|] eqn:Hk; [|assumption].
    destruct (exportToGoogleSheet _ _ _ _ _) as [log [m|u]].
    + apply (tracked_settled k t w _ Ht Hk); try reflexivity;
        unfold exportFailed; destruct (_ || _); reflexivity.
    + now apply (tracked_settled k t w _ Ht Hk).
  - unfold handleGoogleLogin.
    destruct (is_empty (clientId (sheetConfig w)));
      [now apply (tracked_same w)|].
    destruct (negb loaded); [now apply (tracked_same w)|assumption].
  - unfold tokenCallback. destruct (negb (is_empty access_token));
      [now apply (tracked_same w)|assumption].
  - now apply (tracked_same w).
  - now apply (tracked_same w).
  - now apply (tracked_same w).
Qed.

Lemma reachable_tracked (w : World) :
  reachable w -> NoDup (createdIds w) -> tracked w.
Proof.
  induction 1 as [|w e Hr IH He]; intros Hnd.
  - constructor; simpl; try apply NoDup_nil; intros ? H; destruct H.
  - pose proof (createdIds_NoDup_handle e w Hnd) as Hnd'.
    apply handle_tracked; auto. now apply reachable_consistent.
Qed.

(** X12. A Result is shown as [EXPORTING] exactly while one export of it
    is in flight, and no Result has two exports in flight (ids of uploads
    distinct). *)
Theorem exporting_while_in_flight (w : World) :
  reachable w ->
  NoDup (createdIds w) ->
  NoDup (map task_id (exports w))
  /\ forall r, In r (results w) ->
               (status r = EXPORTING
                <-> exists t, In t (exports w) /\ task_id t = id r).
Proof.
  intros Hr Hnd. pose proof (reachable_tracked w Hr Hnd) as Ht.
  split; [apply Ht|]. intros r Hin.
  rewrite (exporting_tracked w Ht r Hin), in_map_iff.
  split; intros (t & A & B); exists t; tauto.
Qed.

End InFlight.

(** ** More about the session store *)

Section Store.
Context {JSN : JsNumber}.

Lemma exports_handle (e : Event) (w : World) :
  match e with
  | ExportClicked _ _ | ExportSettled _ _ => True
  | _ => exports (handle e w) = exports w
  end.
Proof.
  destruct e; simpl; trivial.
  - unfold extractionResolved. by_cases.
  - unfold extractionRejected. by_cases.
  - unfold handleCloseTab. by_cases.
  - unfold dismissError. by_cases.
  - unfold editData. by_cases.
  - unfold handleGoogleLogin. by_cases.
  - unfold tokenCallback. by_cases.
Qed.

Lemma reachable_credentials (w : World) :
  reachable w ->
  forall t, In t (exports w) ->
            is_empty (task_spreadsheetId t) = false
            /\ is_empty (task_accessToken t) = false.
Proof.
  induction 1 as [|w e Hr IH He]; [intros t []|].
  pose proof (exports_handle e w) as Hx.
  destruct e; try (rewrite Hx; exact IH).
  - simpl. unfold handleExportToSheets, handleGoogleLogin.
    destruct (is_empty (spreadsheetId (sheetConfig w))) eqn:Es; [exact IH|].
    destruct (googleAccessToken w) as [[|c tk]|].
    + destruct confirmLogin; [|exact IH].
      destruct (is_empty (clientId (sheetConfig w))); [exact IH|].
      destruct (negb loaded); exact IH.
    + destruct (activeResult w) as [r0|]; [|exact IH].
      intros t Ht. simpl in Ht. apply in_app_or in Ht.
      destruct Ht as [Ht|[<-|[]]]; [now apply IH|]. now split.
    + destruct confirmLogin; [|exact IH].
      destruct (is_empty (clientId (sheetConfig w))); [exact IH|].
      destruct (negb loaded); exact IH.
  - simpl. unfold exportSettled.
    destruct (nth_error (exports w) k) as [t0|]; [|exact IH].
    assert (Hsub : forall t, In t (remove_nth k (exports w)) ->
                             is_empty (task_spreadsheetId t) = false
                             /\ is_empty (task_accessToken t) = false).
    { intros t Ht. apply IH. eapply remove_nth_In. eassumption. }
    destruct (exportToGoogleSheet _ _ _ _ _) as [log [m|u]]; [|exact Hsub].
    unfold exportFailed. destruct (_ || _); exact Hsub.
Qed.

(** X11. Every export the interface starts is started with a non-empty
    spreadsheet id and a non-empty token, so it always gets as far as the
    metadata call: the guard at the start of the protocol never stops
    it. *)
Theorem started_exports_reach_service (w : World) (t : ExportTask)
    (fetch : Request -> Fetched) :
  reachable w ->
  In t (exports w) ->
  exists rest,
    fst (exportToGoogleSheet fetch (task_spreadsheetId t) (task_accessToken t)
                             (task_data t) (task_sheetName t))
    = GetSpreadsheet (task_spreadsheetId t) (task_accessToken t) :: rest.
Proof.
  intros Hr Ht. destruct (reachable_credentials w Hr t Ht) as [Hs Hk].
  unfold exportToGoogleSheet. rewrite Hs, Hk. simpl orb. cbv iota.
  unfold bind at 1. unfold await_fetch.
  destruct (fetch (GetSpreadsheet _ _)) as [m|ok b].
  - now exists [].
  - match goal with |- context [let (_, _) := ?c in _] => destruct c as [log' x] end.
    now exists log'.
Qed.

Lemma export_needs_token (confirmLogin loaded : bool) (w : World) :
  googleAccessToken w = None ->
  results (handleExportToSheets confirmLogin loaded w) = results w
  /\ exports (handleExportToSheets confirmLogin loaded w) = exports w
  /\ requests (handleExportToSheets confirmLogin loaded w) = requests w
  /\ googleAccessToken (handleExportToSheets confirmLogin loaded w) = None.
Proof.
  intros H. unfold handleExportToSheets, handleGoogleLogin. rewrite H.
  destruct (is_empty (spreadsheetId (sheetConfig w))); [now repeat split|].
  destruct confirmLogin; [|now repeat split].
  destruct (is_empty (clientId (sheetConfig w))); [now repeat split|].
  destruct (negb loaded); now repeat split.
Qed.

(** X13. After an export failed with a message containing ["401"] or
    ["unauthorized"], asking for an export again starts no export and
    sends nothing, whatever the user answers: the Results, the exports in
    flight and the requests sent stay as the failure left them. *)
Theorem no_retry_after_auth_failure
    (t : ExportTask) (message : string) (confirmLogin loaded : bool)
    (w : World) :
  str_includes message "401" || str_includes message "unauthorized" = true ->
  let w1 := exportFailed t message w in
  let w2 := handleExportToSheets confirmLogin loaded w1 in
  results w2 = results w1
  /\ exports w2 = exports w
  /\ requests w2 = requests w
  /\ googleAccessToken w2 = None.
Proof.
  intros Hm w1 w2.
  assert (H1 : googleAccessToken w1 = None).
  { unfold w1, exportFailed. now rewrite Hm. }
  assert (H2 : exports w1 = exports w /\ requests w1 = requests w).
  { unfold w1, exportFailed. now rewrite Hm. }
  destruct (export_needs_token confirmLogin loaded w1 H1) as (A & B & C & D).
  destruct H2 as [E F]. unfold w2. now rewrite A, B, C, D, E, F.
Qed.

Lemma updateResult_absent (i : string) (u : Partial) (w : World) :
  has_id i w = false -> results (updateResult i u w) = results w.
Proof.
  intros H. rewrite results_updateResult.
  rewrite <- (map_id (results w)) at 2. apply map_ext_in. intros r Hr.
  destruct (String.eqb (id r) i) eqn:E; [|reflexivity].
  exfalso. apply not_true_iff_false in H. apply H, has_id_In.
  exists r. split; [assumption|]. now apply String.eqb_eq.
Qed.

Lemma has_id_closed (i : string) (w : World) :
  has_id i (handleCloseTab i w) = false.
Proof.
  apply not_true_iff_false. rewrite has_id_In, results_handleCloseTab.
  intros (r & Hr & E). apply filter_In in Hr. destruct Hr as [_ Hr].
  now rewrite E, String.eqb_refl in Hr.
Qed.

(** X14. Once a tab is closed, the completions still owed to it change no
    Result: neither the extraction that resolves or fails, nor the export
    that settles. *)
Theorem late_completion_harmless (i : string) (w : World) :
  let w' := handleCloseTab i w in
  (forall k d, nth_error (extractions w) k = Some i ->
               results (extractionResolved k d w') = results w')
  /\ (forall k m, nth_error (extractions w) k = Some i ->
                  results (extractionRejected k m w') = results w')
  /\ (forall k fetch t, nth_error (exports w) k = Some t -> task_id t = i ->
                        results (exportSettled k fetch w') = results w').
Proof.
  intros w'.
  assert (He : extractions w' = extractions w)
    by (unfold w', handleCloseTab; by_cases).
  assert (Hx : exports w' = exports w)
    by (unfold w', handleCloseTab; by_cases).
  pose proof (has_id_closed i w) as Hgone. fold w' in Hgone.
  split; [|split].
  - intros k d Hk. unfold extractionResolved. rewrite He, Hk.
    rewrite updateResult_absent; [reflexivity|exact Hgone].
  - intros k m Hk. unfold extractionRejected. rewrite He, Hk.
    rewrite updateResult_absent; [reflexivity|exact Hgone].
  - intros k fetch t Hk <-. unfold exportSettled. rewrite Hx, Hk.
    destruct (exportToGoogleSheet _ _ _ _ _) as [log [m|u]].
    + rewrite results_exportFailed.
      change (results (send log (setExports (remove_nth k (exports w)) w')))
        with (results w').
      rewrite <- (map_id (results w')) at 2. apply map_ext_in. intros r Hr.
      destruct (String.eqb (id r) (task_id t)) eqn:E; [|reflexivity].
      exfalso. apply not_true_iff_false in Hgone. apply Hgone, has_id_In.
      exists r. split; [assumption|]. now apply String.eqb_eq.
    + unfold exportSucceeded.
      rewrite updateResult_absent; [reflexivity|exact Hgone].
Qed.

Lemma filter_all {A} (f : A -> bool) (l : list A) :
  (forall x, In x l -> f x = true) -> filter f l = l.
Proof.
  induction l as [|a l IH]; intros H; simpl; [reflexivity|].
  rewrite (H a (or_introl eq_refl)). f_equal. apply IH.
  intros x Hx. apply H. now right.
Qed.

(** X15. Closing the tab that was just created gives back the collection
    as it was before the upload, with the last of its tabs active (none if
    it was empty), whichever tab was active before. *)
Theorem close_new_tab (now : N) (base64 : string) (w : World) :
  let newId := ("result-" ++ String_of_N now)%string in
  has_id newId w = false ->
  let w' := handleCloseTab newId (handleImageSelect now base64 w) in
  results w' = results w
  /\ activeResultId w'
     = match results w with
       | [] => None
       | r0 :: _ => Some (id (last (results w) r0))
       end.
Proof.
  intros newId Hfresh w'.
  assert (Hf : filter (fun r => negb (String.eqb (id r) newId))
                      (results (handleImageSelect now base64 w))
               = results w).
  { unfold handleImageSelect. cbn [results setExtractions record_id
                                     setActiveResultId setResults].
    rewrite filter_app. simpl. fold newId. rewrite String.eqb_refl. simpl.
    rewrite app_nil_r. apply filter_all. intros r Hr.
    apply negb_true_iff, not_true_iff_false. intros E.
    apply not_true_iff_false in Hfresh. apply Hfresh, has_id_In.
    exists r. split; [assumption|]. now apply String.eqb_eq. }
  split.
  - unfold w'. now rewrite results_handleCloseTab.
  - unfold w', handleCloseTab. rewrite Hf.
    replace (is_active_id (activeResultId (handleImageSelect now base64 w)) newId)
      with true.
    + destruct (results w); reflexivity.
    + unfold handleImageSelect. simpl. fold newId.
      now rewrite String.eqb_refl.
Qed.

Lemma map_updateResult {B} (proj : ProcessedResult -> B) (i : string)
    (u : Partial) (w : World) :
  (forall r, proj (merge r u) = proj r) ->
  map proj (results (updateResult i u w)) = map proj (results w).
Proof.
  intros H. rewrite results_updateResult, map_map. apply map_ext. intros r.
  destruct (String.eqb (id r) i); [apply H|reflexivity].
Qed.

Ltac framed :=
  repeat split;
  unfold setExports, alert, setGoogleAccessToken, send, setShowSettings,
    setExtractions;
  cbn [results];
  repeat (rewrite map_updateResult by (intro; reflexivity));
  try reflexivity.

(** X16. Tabs appear only by an upload and disappear only by a close: no
    other event changes the ids of the Results, their order or their
    images.  Names change only by a rename, and data only when an
    extraction resolves or the editor reports a change. *)
Theorem tabs_frame (e : Event) (w : World) :
  if tab_event e then True
  else map id (results (handle e w)) = map id (results w)
       /\ map image (results (handle e w)) = map image (results w)
       /\ match e with
          | RenameTab _ _ => True
          | _ => map name (results (handle e w)) = map name (results w)
          end
       /\ match e with
          | ExtractionResolved _ _ | EditData _ => True
          | _ => map data (results (handle e w)) = map data (results w)
          end.
Proof.
  destruct e; cbn [handle tab_event]; trivial.
  - unfold extractionResolved. destruct (nth_error _ _); framed.
  - unfold extractionRejected. destruct (nth_error _ _); framed.
  - framed.
  - unfold handleRenameTab. framed.
  - unfold dismissError. destruct (activeResult w); framed.
  - unfold editData. destruct (activeResultId w) as [[|c t]|]; framed.
  - unfold handleExportToSheets, handleGoogleLogin.
    destruct (is_empty (spreadsheetId (sheetConfig w))); [framed|].
    destruct (googleAccessToken w) as [[|c t]|];
      try (destruct confirmLogin; [|framed];
           destruct (is_empty (clientId (sheetConfig w))); [framed|];
           destruct (negb loaded); framed).
    destruct (activeResult w); framed.
  - unfold exportSettled. destruct (nth_error _ _) as [t|]; [|framed].
    destruct (exportToGoogleSheet _ _ _ _ _) as [log [m|u]].
    + unfold exportFailed. destruct (_ || _); framed.
    + unfold exportSucceeded. framed.
  - unfold handleGoogleLogin.
    destruct (is_empty (clientId (sheetConfig w))); [framed|].
    destruct (negb loaded); framed.
  - unfold tokenCallback. destruct (negb (is_empty access_token)); framed.
  - framed.
  - framed.
  - framed.
Qed.

End Store.

(** ** The CSV download *)

Section Csv.
Context {JSN : JsNumber}.

Lemma padded_full (vals : list string) (n : nat) :
  n <= List.length vals -> padded vals n = vals.
Proof.
  intros H. unfold padded. replace (n - List.length vals) with 0 by lia.
  simpl. apply app_nil_r.
Qed.

(** X17. The CSV download and the spreadsheet export agree on the header
    line, and they agree on the rows whenever no row of the first table has
    fewer values than the table has headers. *)
Theorem csv_agrees_with_sheet (d : ExtractedData) :
  csvHeaders d = finalHeaders d
  /\ ((forall primary others, tables d = primary :: others ->
         Forall (fun r => List.length (headers primary)
                          <= List.length (values r)) (rows primary)) ->
      csvRows d = rowsToAppend d).
Proof.
  split; [reflexivity|]. intros H.
  pose proof (flatten_shape d) as Hf. unfold csvRows.
  destruct (tables d) as [|primary others]; [now destruct Hf as [_ ->]|].
  destruct Hf as [_ ->]. specialize (H primary others eq_refl).
  rewrite Forall_forall in H. apply map_ext_in. intros r Hr.
  now rewrite padded_full by (now apply H).
Qed.

Lemma find_findIndex {A} (p : A -> bool) (l : list A) (x : A) :
  find p l = Some x ->
  exists n, findIndex p l = Z.of_nat n /\ nth_error l n = Some x.
Proof.
  induction l as [|a l IH]; simpl; [discriminate|].
  destruct (p a).
  - intros H. injection H as <-. now exists 0.
  - intros H. destruct (IH H) as (n & E & Hn). exists (S n).
    rewrite E. split; [|assumption].
    destruct (Z.of_nat n =? -1)%Z eqn:E1; [apply Z.eqb_eq in E1|]; lia.
Qed.

(** X18. The downloaded file is numbered by the position of the active
    tab in the tab bar, counted from one. *)
Theorem csvFileName_position (w : World) (r : ProcessedResult) :
  activeResult w = Some r ->
  exists n,
    nth_error (results w) n = Some r
    /\ csvFileName w
       = Some ("extracted_data_" ++ String_of_Z (Z.of_nat (S n)) ++ ".csv")%string.
Proof.
  intros H. unfold csvFileName. rewrite H. unfold activeResult in H.
  destruct (find_findIndex _ _ _ H) as (n & E & Hn).
  exists n. split; [assumption|]. rewrite E.
  now replace (Z.of_nat n + 1)%Z with (Z.of_nat (S n)) by lia.
Qed.

End Csv.

(** ** The error message of a failed export *)

Section Messages.
Context {JSN : JsNumber}.

Lemma prefix_spec (a b : string) :
  String.prefix a b = true <-> exists post, b = (a ++ post)%string.
Proof.
  revert b. induction a as [|c a IH]; intros b.
  - split; [intros _; now exists b|intros _; now destruct b].
  - destruct b as [|c' b]; simpl;
      [split; [discriminate|intros (p & H); discriminate H]|].
    destruct (Ascii.ascii_dec c c') as [<-|Hn].
    + rewrite IH. split; intros (p & H); exists p; congruence.
    + split; [discriminate|]. intros (p & H). congruence.
Qed.

Lemma str_includes_spec (hay needle : string) :
  str_includes hay needle = true <-> occurs_in needle hay.
Proof.
  unfold occurs_in. induction hay as [|c hay IH].
  - cbn [str_includes]. destruct (String.prefix needle EmptyString) eqn:E.
    + apply prefix_spec in E. destruct E as (post & E).
      split; [intros _; now exists EmptyString, post|reflexivity].
    + split; [discriminate|]. intros (pre & post & H).
      destruct pre; simpl in H; [|discriminate H].
      assert (String.prefix needle EmptyString = true)
        by (apply prefix_spec; now exists post).
      congruence.
  - cbn [str_includes]. destruct (String.prefix needle (String c hay)) eqn:E.
    + apply prefix_spec in E. destruct E as (post & E).
      split; [intros _; now exists EmptyString, post|reflexivity].
    + rewrite IH. split.
      * intros (pre & post & H). exists (String c pre), post. simpl. congruence.
      * intros (pre & post & H). destruct pre as [|c' pre]; simpl in H.
        -- assert (String.prefix needle (String c hay) = true)
             by (apply prefix_spec; now exists post).
           congruence.
        -- injection H as _ H. now exists pre, post.
Qed.

(** X24. A failed export clears the token exactly when its message
    contains ["401"] or ["unauthorized"], in these letters: any other
    message leaves the token as it is and shows the one alert of the
    failure. *)
Theorem token_cleared_iff (t : ExportTask) (message : string) (w : World) :
  (occurs_in "401" message \/ occurs_in "unauthorized" message ->
   googleAccessToken (exportFailed t message w) = None)
  /\ (~ occurs_in "401" message -> ~ occurs_in "unauthorized" message ->
      googleAccessToken (exportFailed t message w) = googleAccessToken w
      /\ alerts (exportFailed t message w)
         = alerts w ++ [("Export Failed: " ++ message)%string]).
Proof.
  unfold exportFailed. split.
  - intros H.
    assert (E : str_includes message "401"
                || str_includes message "unauthorized" = true).
    { apply orb_true_iff. now rewrite !str_includes_spec. }
    now rewrite E.
  - intros H1 H2.
    assert (E : str_includes message "401"
                || str_includes message "unauthorized" = false).
    { apply orb_false_iff.
      split; apply not_true_iff_false; now rewrite str_includes_spec. }
    rewrite E. split; reflexivity.
Qed.

End Messages.

(** ** The editor *)

Section Editor.
Context {JSN : JsNumber}.

Lemma replace_nth_length {A} (i : nat) (v : A) (l : list A) :
  List.length (replace_nth i v l) = List.length l.
Proof.
  revert i. induction l as [|x l IH]; intros [|i]; simpl; try reflexivity.
  now rewrite IH.
Qed.

Lemma replace_nth_Forall {A} (P : A -> Prop) (i : nat) (v : A) (l : list A) :
  Forall P l -> P v -> Forall P (replace_nth i v l).
Proof.
  intros H Hv. revert i. induction H as [|x l Hx Hl IH]; intros [|i]; simpl;
    constructor; auto.
Qed.

Lemma replace_nth_same {A} (i : nat) (x : A) (l : list A) :
  nth_error l i = Some x -> replace_nth i x l = l.
Proof.
  revert i. induction l as [|a l IH]; intros [|i]; simpl; try discriminate.
  - intros H. now injection H as ->.
  - intros H. now rewrite IH.
Qed.

Lemma replace_nth_twice {A} (i : nat) (a b : A) (l : list A) :
  replace_nth i a (replace_nth i b l) = replace_nth i a l.
Proof.
  revert i. induction l as [|x l IH]; intros [|i]; simpl; try reflexivity.
  now rewrite IH.
Qed.

Lemma replace_nth_hit {A} (i : nat) (v : A) (l : list A) :
  i < List.length l -> nth_error (replace_nth i v l) i = Some v.
Proof.
  revert i. induction l as [|x l IH]; intros [|i]; simpl; try lia.
  - reflexivity.
  - intros H. apply IH. lia.
Qed.

Lemma replace_nth_map {A B} (g : A -> B) (i : nat) (v : A) (l : list A) :
  map g (replace_nth i v l) = replace_nth i (g v) (map g l).
Proof.
  revert i. induction l as [|x l IH]; intros [|i]; simpl; try reflexivity.
  now rewrite IH.
Qed.

Lemma replace_nth_tail {A} (i : nat) (v x : A) (l : list A) :
  replace_nth (S i) v (x :: l) = x :: replace_nth i v l.
Proof. reflexivity. Qed.

Lemma filter_index_Forall {A} (P : A -> Prop) (keep : nat -> bool) (i : nat)
    (l : list A) :
  Forall P l -> Forall P (filter_index keep i l).
Proof.
  intros H. revert i. induction H as [|x l Hx Hl IH]; intros i; simpl;
    [constructor|].
  destruct (keep i); [constructor|]; auto.
Qed.

Lemma filter_index_drop {A} (off index : nat) (l : list A) :
  filter_index (fun i => negb (i =? off + index)%nat) off l
  = firstn index l ++ skipn (S index) l.
Proof.
  revert off index. induction l as [|x l IH]; intros off index; simpl.
  - now destruct index.
  - destruct index as [|index].
    + rewrite Nat.add_0_r, Nat.eqb_refl. simpl.
      clear IH. assert (H : forall o, off < o ->
                  filter_index (fun i => negb (i =? off)%nat) o l = l).
      { induction l as [|y l IH]; intros o Ho; simpl; [reflexivity|].
        destruct (o =? off)%nat eqn:E; [apply Nat.eqb_eq in E; lia|].
        simpl. f_equal. apply IH. lia. }
      apply H. lia.
    + destruct (off =? off + S index)%nat eqn:E;
        [apply Nat.eqb_eq in E; lia|].
      simpl. f_equal.
      replace (off + S index) with (S off + index) by lia. apply IH.
Qed.

Lemma drop_index_spec {A} (index : nat) (l : list A) :
  drop_index index l = firstn index l ++ skipn (S index) l.
Proof. apply (filter_index_drop 0 index l). Qed.

Lemma drop_index_last {A} (l : list A) (x : A) :
  drop_index (List.length l) (l ++ [x]) = l.
Proof.
  rewrite drop_index_spec.
  assert (F : firstn (List.length l) (l ++ [x]) = l).
  { rewrite firstn_app, Nat.sub_diag, firstn_all. simpl. apply app_nil_r. }
  assert (K : skipn (S (List.length l)) (l ++ [x]) = []).
  { apply skipn_all2. rewrite List.length_app. simpl. lia. }
  rewrite F, K. apply app_nil_r.
Qed.

Lemma rectangular_replace (d : ExtractedData) (t : nat) (tb : Table)
    (fs : list Field) :
  rectangular d ->
  Forall (fun r => List.length (values r) = List.length (headers tb)) (rows tb) ->
  rectangular (mkData fs (replace_nth t tb (tables d))).
Proof. intros H Ht. now apply replace_nth_Forall. Qed.

Lemma rectangular_table (d : ExtractedData) (t : nat) (tb : Table) :
  rectangular d -> nth_error (tables d) t = Some tb ->
  Forall (fun r => List.length (values r) = List.length (headers tb)) (rows tb).
Proof.
  intros H Ht. unfold rectangular in H. rewrite Forall_forall in H.
  apply H. eapply nth_error_In. eassumption.
Qed.

(** X19. Every control the editor draws works: its handler returns a
    value (it does not throw and leaves no hole in an array), and if every
    row had as many values as its table has headers before, this is still
    so after. *)
Theorem rendered_edit_works (d : ExtractedData) (e : Edit) :
  rendered d e = true ->
  exists d', applyEdit e d = Some d' /\ (rectangular d -> rectangular d').
Proof.
  destruct e; simpl; intros Hr.
  - unfold handleFieldChange. apply Nat.ltb_lt, nth_error_Some in Hr.
    destruct (nth_error (fields d) index) as [f|]; [|congruence].
    eexists. split; [reflexivity|]. trivial.
  - eexists. split; [reflexivity|]. trivial.
  - eexists. split; [reflexivity|]. trivial.
  - unfold handleTableCellChange.
    destruct (nth_error (tables d) tableIndex) as [tb|] eqn:Et; [|discriminate].
    destruct (nth_error (rows tb) rowIndex) as [rw|] eqn:Er; [|discriminate].
    unfold array_set. rewrite Hr. eexists. split; [reflexivity|].
    intros H. apply rectangular_replace; [assumption|]. simpl.
    pose proof (rectangular_table d tableIndex tb H Et) as Hrows.
    apply replace_nth_Forall; [assumption|]. simpl.
    rewrite replace_nth_length. rewrite Forall_forall in Hrows.
    apply Hrows. eapply nth_error_In. eassumption.
  - unfold handleHeaderChange.
    destruct (nth_error (tables d) tableIndex) as [tb|] eqn:Et; [|discriminate].
    unfold array_set. rewrite Hr. eexists. split; [reflexivity|].
    intros H. apply rectangular_replace; [assumption|]. simpl.
    rewrite replace_nth_length. now apply (rectangular_table d tableIndex).
  - unfold deleteTableRow.
    destruct (nth_error (tables d) tableIndex) as [tb|] eqn:Et; [|discriminate].
    eexists. split; [reflexivity|].
    intros H. apply rectangular_replace; [assumption|]. simpl.
    apply filter_index_Forall. now apply (rectangular_table d tableIndex).
  - unfold addTableRow. apply Nat.ltb_lt, nth_error_Some in Hr.
    destruct (nth_error (tables d) tableIndex) as [tb|] eqn:Et; [|congruence].
    eexists. split; [reflexivity|].
    intros H. apply rectangular_replace; [assumption|]. simpl.
    apply Forall_app. split; [now apply (rectangular_table d tableIndex)|].
    repeat constructor. simpl. apply repeat_length.
Qed.

(** X20. Deleting what was just added gives back the data: the field
    after "Add Field", the row after "Add Row". *)
Theorem add_then_delete (d : ExtractedData) :
  deleteField (List.length (fields d)) (addField d) = d
  /\ forall t d',
       addTableRow t d = Some d' ->
       exists tb,
         nth_error (tables d) t = Some tb
         /\ deleteTableRow t (List.length (rows tb)) d' = Some d.
Proof.
  split.
  - unfold deleteField, addField. simpl. rewrite drop_index_last.
    now destruct d.
  - intros t d'. unfold addTableRow.
    destruct (nth_error (tables d) t) as [tb|] eqn:Et; [|discriminate].
    intros H. injection H as <-. exists tb. split; [reflexivity|].
    unfold deleteTableRow. simpl.
    assert (Hlt : t < List.length (tables d))
      by (apply nth_error_Some; congruence).
    rewrite (replace_nth_hit t _ (tables d) Hlt). simpl.
    rewrite drop_index_last, replace_nth_twice.
    replace (mkTable (tname tb) (headers tb) (rows tb)) with tb
      by (now destruct tb).
    rewrite (replace_nth_same t tb _ Et). now destruct d.
Qed.

Lemma firstn_skipn_app {A} (i : nat) (l rest : list A) :
  i < List.length l ->
  firstn i (l ++ rest) ++ skipn (S i) (l ++ rest)
  = (firstn i l ++ skipn (S i) l) ++ rest.
Proof.
  intros H. rewrite firstn_app, skipn_app.
  replace (i - List.length l) with 0 by lia.
  replace (S i - List.length l) with 0 by lia.
  simpl. now rewrite app_nil_r, <- app_assoc.
Qed.

Lemma drop_map {A B} (g : A -> B) (i : nat) (l : list A) :
  map g (firstn i l ++ skipn (S i) l)
  = firstn i (map g l) ++ skipn (S i) (map g l).
Proof. now rewrite map_app, firstn_map, skipn_map. Qed.

(** X23. Deleting a field takes its column, and nothing else, out of what
    is exported: the header line and every row lose the entry at the
    field's position. *)
Theorem deleteField_export (index : nat) (d : ExtractedData) :
  index < List.length (fields d) ->
  finalHeaders (deleteField index d)
  = firstn index (finalHeaders d) ++ skipn (S index) (finalHeaders d)
  /\ rowsToAppend (deleteField index d)
     = map (fun row => firstn index row ++ skipn (S index) row)
           (rowsToAppend d).
Proof.
  intros Hlt.
  pose proof (flatten_shape d) as Hd.
  pose proof (flatten_shape (deleteField index d)) as Hd'.
  simpl in Hd'. rewrite drop_index_spec in Hd'.
  destruct (tables d) as [|primary others].
  - destruct Hd as [-> ->], Hd' as [-> ->]. rewrite !drop_map. split; reflexivity.
  - destruct Hd as [-> ->], Hd' as [-> ->]. rewrite !drop_map. split.
    + rewrite firstn_skipn_app; [reflexivity|now rewrite length_map].
    + rewrite map_map. apply map_ext. intros r.
      rewrite firstn_skipn_app; [reflexivity|now rewrite length_map].
Qed.

Lemma globalValues_replace (i : nat) (f f' : Field) (d : ExtractedData) :
  nth_error (fields d) i = Some f ->
  value f' = value f ->
  map (fun x => String_ (value x)) (replace_nth i f' (fields d))
  = map (fun x => String_ (value x)) (fields d).
Proof.
  intros H E. rewrite replace_nth_map, E. apply replace_nth_same.
  now rewrite nth_error_map, H.
Qed.

(** X21. Editing a field's value leaves the exported header line alone and
    puts the new value in the field's column of every exported row;
    editing a field's label leaves the exported rows alone and puts the new
    label at the field's place in the header line. *)
Theorem field_edit_export (index : nat) (newVal : string)
    (d d' : ExtractedData) :
  (handleFieldChange index KValue newVal d = Some d' ->
   finalHeaders d' = finalHeaders d
   /\ Forall (fun row => nth_error row index = Some newVal) (rowsToAppend d'))
  /\ (handleFieldChange index KLabel newVal d = Some d' ->
      rowsToAppend d' = rowsToAppend d
      /\ nth_error (finalHeaders d') index = Some newVal).
Proof.
  unfold handleFieldChange.
  destruct (nth_error (fields d) index) as [f|] eqn:Ef;
    [|split; discriminate].
  assert (Hlt : index < List.length (fields d))
    by (apply nth_error_Some; congruence).
  split; intros H; injection H as <-.
  - split.
    + unfold finalHeaders, globalHeaders. simpl.
      rewrite replace_nth_map. simpl.
      rewrite (replace_nth_same index (label f) (map label (fields d)));
        [reflexivity|now rewrite nth_error_map, Ef].
    + assert (Hg : nth_error
                     (map (fun x => String_ (value x))
                          (replace_nth index (mkField (label f) (VString newVal))
                                       (fields d))) index = Some newVal).
      { rewrite replace_nth_map. simpl. apply replace_nth_hit.
        now rewrite length_map. }
      assert (Hl : index < List.length
                     (map (fun x => String_ (value x))
                          (replace_nth index (mkField (label f) (VString newVal))
                                       (fields d)))).
      { now rewrite length_map, replace_nth_length. }
      unfold rowsToAppend, globalValues. simpl.
      destruct (tables d) as [|primary others].
      * repeat constructor. exact Hg.
      * apply Forall_forall. intros row Hrow. apply in_map_iff in Hrow.
        destruct Hrow as (r & <- & _). now rewrite nth_error_app1.
  - split.
    + unfold rowsToAppend, globalValues. simpl.
      now rewrite (globalValues_replace index f (mkField newVal (value f))
                     d Ef eq_refl).
    + unfold finalHeaders, globalHeaders. simpl.
      assert (Hg : nth_error
                     (map label (replace_nth index (mkField newVal (value f))
                                             (fields d))) index = Some newVal).
      { rewrite replace_nth_map. simpl. apply replace_nth_hit.
        now rewrite length_map. }
      destruct (tables d); [exact Hg|].
      rewrite nth_error_app1; [exact Hg|].
      now rewrite length_map, replace_nth_length.
Qed.

Lemma export_depends_on_head (fs : list Field) (t0 : Table)
    (rest rest' : list Table) :
  finalHeaders (mkData fs (t0 :: rest')) = finalHeaders (mkData fs (t0 :: rest))
  /\ rowsToAppend (mkData fs (t0 :: rest'))
     = rowsToAppend (mkData fs (t0 :: rest))
  /\ csvHeaders (mkData fs (t0 :: rest')) = csvHeaders (mkData fs (t0 :: rest))
  /\ csvRows (mkData fs (t0 :: rest')) = csvRows (mkData fs (t0 :: rest)).
Proof. repeat split; reflexivity. Qed.

(** X22. An edit of a table other than the first changes nothing of what
    the spreadsheet export and the CSV download write. *)
Theorem later_tables_not_exported (e : Edit) (t : nat) (d d' : ExtractedData) :
  edited_table e = Some t ->
  0 < t ->
  applyEdit e d = Some d' ->
  finalHeaders d' = finalHeaders d
  /\ rowsToAppend d' = rowsToAppend d
  /\ csvHeaders d' = csvHeaders d
  /\ csvRows d' = csvRows d.
Proof.
  intros He Ht Ha.
  assert (H : exists tb, nth_error (tables d) t <> None
                         /\ d' = mkData (fields d) (replace_nth t tb (tables d))).
  { destruct e; simpl in He; try discriminate He; injection He as ->;
      simpl in Ha;
      [unfold handleTableCellChange in Ha
      |unfold handleHeaderChange in Ha
      |unfold deleteTableRow in Ha
      |unfold addTableRow in Ha];
      destruct (nth_error (tables d) t) as [tb|]; try discriminate Ha.
    - destruct (nth_error (rows tb) rowIndex); [|discriminate Ha].
      destruct (array_set _ _ _); [|discriminate Ha].
      injection Ha as <-. eexists. split; [discriminate|reflexivity].
    - destruct (array_set _ _ _); [|discriminate Ha].
      injection Ha as <-. eexists. split; [discriminate|reflexivity].
    - injection Ha as <-. eexists. split; [discriminate|reflexivity].
    - injection Ha as <-. eexists. split; [discriminate|reflexivity]. }
  destruct H as (tb & Hn & ->).
  destruct t as [|t]; [lia|].
  destruct d as [fs [|t0 rest]]; simpl in *; [now elim Hn|].
  apply export_depends_on_head.
Qed.

(** X25. A row added to the first table in the editor is exported as one
    more row, last: the field values followed by one empty cell per
    header. *)
Theorem added_row_export (d d' : ExtractedData) :
  addTableRow 0 d = Some d' ->
  exists primary others,
    tables d = primary :: others
    /\ finalHeaders d' = finalHeaders d
    /\ rowsToAppend d'
       = rowsToAppend d
         ++ [map (fun f => String_ (value f)) (fields d)
             ++ repeat EmptyString (List.length (headers primary))].
Proof.
  unfold addTableRow. destruct d as [fs [|primary others]]; simpl;
    [discriminate|].
  intros H. injection H as <-. exists primary, others.
  split; [reflexivity|]. split; [reflexivity|].
  unfold rowsToAppend, globalValues. simpl. rewrite map_app. simpl.
  rewrite map_id_string, pad_while_padded, padded_full;
    [reflexivity|rewrite repeat_length; lia].
Qed.

End Editor.

(** ** The further properties at concrete inputs *)

Lemma append_rows_shape_invoice :
  In (AppendValues "sheet-id" "token" "'Result 1'!A2" invoiceRows)
     (fst (exportToGoogleSheet accepting "sheet-id" "token" invoice "Result 1"))
  /\ List.length invoiceRows = 2.
Proof.
  assert (H : In (AppendValues "sheet-id" "token" "'Result 1'!A2" invoiceRows)
                 (fst (exportToGoogleSheet accepting "sheet-id" "token"
                                           invoice "Result 1")))
    by (vm_compute; tauto).
  split; [exact H|].
  exact (proj2 (append_rows_shape accepting "sheet-id" "token" invoice
                  "Result 1" _ _ _ _ H)).
Defined.

Lemma exports_address_own_sheet_results :
  "'Result 1'!A2" <> "'Result 2'!A1:Z1".
Proof.
  apply (exports_address_own_sheet accepting accepting
           "sheet-id" "token" "sheet-id" "token" invoice invoice
           "Result 1" "Result 2"
           ltac:(discriminate)
           (AppendValues "sheet-id" "token" "'Result 1'!A2" invoiceRows)
           (GetValues "sheet-id" "token" "'Result 2'!A1:Z1")).
  - vm_compute; tauto.
  - vm_compute; tauto.
  - reflexivity.
  - reflexivity.
Defined.

Lemma no_header_write_after_union_synced :
  existingHeadersOf synced "sheet-id" "token" "Result 1"
  = masterHeaders [] (finalHeaders invoice)
  /\ ~ In (PutValues "sheet-id" "token" "'Result 1'!A1"
                     [["Date"; "Item"; "Qty"]])
          (fst (exportToGoogleSheet synced "sheet-id" "token" invoice
                                    "Result 1")).
Proof.
  split; [reflexivity|].
  apply (no_header_write_after_union synced "sheet-id" "token" invoice
           "Result 1" []).
  reflexivity.
Defined.

Lemma header_write_extends_invoice :
  exists added,
    added <> []
    /\ [["Date"; "Item"; "Qty"]]
       = [existingHeadersOf accepting "sheet-id" "token" "Result 1" ++ added]
    /\ "'Result 1'!A1" = (formatSheetName "Result 1" ++ "!A1")%string.
Proof.
  apply (header_write_extends accepting "sheet-id" "token" invoice "Result 1"
           "sheet-id" "token").
  vm_compute; tauto.
Defined.

Lemma success_means_appended_examples :
  (exists range vals b,
      In (AppendValues "sheet-id" "token" range vals)
         (fst (exportToGoogleSheet accepting "sheet-id" "token" invoice
                                   "Result 1"))
      /\ accepting (AppendValues "sheet-id" "token" range vals)
         = Response true b)
  /\ fst (exportToGoogleSheet expired "sheet-id" "token" invoice "Result 1")
     = [GetSpreadsheet "sheet-id" "token"].
Proof.
  split.
  - apply (proj1 (success_means_appended accepting "sheet-id" "token" invoice
                    "Result 1")).
    reflexivity.
  - apply (proj2 (success_means_appended expired "sheet-id" "token" invoice
                    "Result 1")); reflexivity.
Defined.

Lemma export_calls_scope_invoice :
  credentials (AddSheet "sheet-id" "token" "Result 1") = ("sheet-id", "token")
  /\ exists b, accepting (GetSpreadsheet "sheet-id" "token") = Response true b
               /\ ~ In "Result 1" (sheets b).
Proof.
  destruct (export_calls_scope accepting "sheet-id" "token" invoice "Result 1"
              (AddSheet "sheet-id" "token" "Result 1")
              ltac:(vm_compute; tauto)) as [Hc Ha].
  split; [exact Hc|].
  exact (proj2 (Ha "sheet-id" "token" "Result 1" eq_refl)).
Defined.

Lemma createdIds_exporting : NoDup (createdIds exporting).
Proof. vm_compute. repeat constructor; simpl; intuition discriminate. Qed.

Lemma started_exports_reach_service_exporting :
  exists rest,
    fst (exportToGoogleSheet expired "sheet-id" "token" invoice "Result 2")
    = GetSpreadsheet "sheet-id" "token" :: rest.
Proof.
  apply (started_exports_reach_service exporting
           (mkTask "result-3000" "Result 2" "sheet-id" "token" invoice)
           expired reachable_exporting).
  vm_compute. left. reflexivity.
Defined.

Lemma exporting_while_in_flight_exporting :
  NoDup (map task_id (exports exporting))
  /\ forall r, In r (results exporting) ->
               (status r = EXPORTING
                <-> exists t, In t (exports exporting) /\ task_id t = id r).
Proof.
  exact (exporting_while_in_flight exporting reachable_exporting
           createdIds_exporting).
Defined.

Lemma no_retry_after_auth_failure_exporting :
  let t := mkTask "result-3000" "Result 2" "sheet-id" "token" invoice in
  let w1 := exportFailed t "401 unauthorized" exporting in
  let w2 := handleExportToSheets true true w1 in
  results w2 = results w1
  /\ exports w2 = exports exporting
  /\ requests w2 = requests exporting
  /\ googleAccessToken w2 = None.
Proof.
  intros t w1 w2.
  apply (no_retry_after_auth_failure t "401 unauthorized" true true exporting).
  reflexivity.
Defined.

Lemma late_completion_harmless_uploading :
  nth_error (extractions uploading) 0 = Some "result-1000"
  /\ results (extractionResolved 0 invoice
                (handleCloseTab "result-1000" uploading))
     = results (handleCloseTab "result-1000" uploading).
Proof.
  split; [reflexivity|].
  apply (proj1 (late_completion_harmless "result-1000" uploading)).
  reflexivity.
Defined.

Lemma close_new_tab_twoTabs :
  let w' := handleCloseTab "result-4000"
              (handleImageSelect 4000 "image-4" twoTabs) in
  has_id "result-4000" twoTabs = false
  /\ results w' = results twoTabs
  /\ activeResultId w' = Some "result-3000".
Proof.
  intros w'. split; [reflexivity|].
  exact (close_new_tab 4000 "image-4" twoTabs eq_refl).
Defined.

Lemma csv_agrees_with_sheet_invoice : csvRows invoice = rowsToAppend invoice.
Proof.
  apply (proj2 (csv_agrees_with_sheet invoice)).
  intros primary others E. injection E as <- _.
  repeat constructor.
Defined.

Lemma csvFileName_position_twoTabs :
  exists n,
    nth_error (results twoTabs) n
    = Some (mkResult "result-3000" "Result 2" "image-3" invoice SUCCESS None)
    /\ csvFileName twoTabs
       = Some ("extracted_data_" ++ String_of_Z (Z.of_nat (S n)) ++ ".csv")%string.
Proof.
  apply (csvFileName_position twoTabs). reflexivity.
Defined.

Lemma rendered_edit_works_invoice :
  exists d', applyEdit (CellChange 0 1 1 "2") invoice = Some d'
             /\ (rectangular invoice -> rectangular d').
Proof.
  apply (rendered_edit_works invoice (CellChange 0 1 1 "2")). reflexivity.
Defined.

Lemma add_then_delete_invoice :
  exists tb,
    nth_error (tables invoice) 0 = Some tb
    /\ forall d', addTableRow 0 invoice = Some d' ->
                  deleteTableRow 0 (List.length (rows tb)) d' = Some invoice.
Proof.
  destruct (proj2 (add_then_delete invoice) 0 _ eq_refl) as (tb & Ht & Hd).
  exists tb. split; [exact Ht|].
  intros d' H. injection H as <-. exact Hd.
Defined.

Lemma field_edit_export_invoice :
  exists d', handleFieldChange 0 KValue "2025-02-02" invoice = Some d'
             /\ finalHeaders d' = ["Date"; "Item"; "Qty"]
             /\ Forall (fun row => nth_error row 0 = Some "2025-02-02")
                       (rowsToAppend d').
Proof.
  eexists. split; [reflexivity|].
  exact (proj1 (field_edit_export 0 "2025-02-02" invoice _) eq_refl).
Defined.

Lemma later_tables_not_exported_twoTables :
  exists d', applyEdit (AddRow 1) twoTables = Some d'
             /\ rowsToAppend d' = rowsToAppend twoTables
             /\ csvRows d' = csvRows twoTables.
Proof.
  eexists. split; [reflexivity|].
  destruct (later_tables_not_exported (AddRow 1) 1 twoTables _ eq_refl
              ltac:(lia) eq_refl) as (_ & A & _ & B).
  split; [exact A|exact B].
Defined.

Lemma deleteField_export_invoice :
  finalHeaders (deleteField 0 invoice) = ["Item"; "Qty"]
  /\ rowsToAppend (deleteField 0 invoice) = [["Pen"; "3"]; ["Book"; "1"]].
Proof.
  exact (deleteField_export 0 invoice ltac:(simpl; lia)).
Defined.

Lemma token_cleared_iff_quota :
  let t := mkTask "result-3000" "Result 2" "sheet-id" "token" invoice in
  googleAccessToken (exportFailed t "Quota exceeded" exporting)
  = googleAccessToken exporting
  /\ alerts (exportFailed t "Quota exceeded" exporting)
     = alerts exporting ++ ["Export Failed: Quota exceeded"].
Proof.
  intros t.
  apply (proj2 (token_cleared_iff t "Quota exceeded" exporting));
    intros H; apply str_includes_spec in H; discriminate H.
Defined.

Lemma added_row_export_invoice :
  exists d', addTableRow 0 invoice = Some d'
             /\ exists primary others,
                  tables invoice = primary :: others
                  /\ finalHeaders d' = finalHeaders invoice
                  /\ rowsToAppend d'
                     = rowsToAppend invoice
                       ++ [map (fun f => String_ (value f)) (fields invoice)
                           ++ repeat EmptyString
                                (List.length (headers primary))].
Proof.
  eexists. split; [reflexivity|].
  exact (added_row_export invoice _ eq_refl).
Defined.
